(** * MobileNetV2 (src/MobileNet/model_v2.py): construction algorithm

    A shallow embedding of the channel rounding rule [_make_divisible], of
    the layer constructors [ConvBNReLU] and [InvertedResidual], and of
    [MobileNetV2.__init__] (assembly of the feature sequence followed by the
    weight-initialisation pass), with the properties of the construction
    stated in the specification.

    Conventions of the embedding.
    - Python [int] is [Z]; [//] on integers is floor division, which is
      [Z.div] for a non-zero divisor, and raises [ZeroDivisionError] for 0.
    - Python [float] is modelled twice.  [B64] is binary64 arithmetic: a
      finite float is the rational it denotes, every operation rounds the
      exact result to nearest, ties to even, overflows to an infinity, and
      [int()] raises on an infinity and on NaN.  [_make_divisible_b64] and
      [MobileNetV2__init__] are the source in this arithmetic; the
      statements about values of the rounding rule and about exceptions are
      made of them.  [_make_divisible] and [MobileNetV2.init] are the same
      code with the float operations computed exactly, over [Q]; they serve
      the statements about the structure of the network, which do not
      depend on how a width is rounded.
    - The layers of the tensor library ([nn.Conv2d], [nn.BatchNorm2d], ...)
      are records of the hyper-parameters they are constructed with, plus
      their parameter tensors.  A parameter tensor is represented by the log
      of the [nn.init] fills this file applies to it.
    - The tensor library, which is not part of the source, rejects some
      arguments inside its constructors.  [nn_Conv2d], [nn_BatchNorm2d] and
      [nn_Linear] are the constructors with these checks, and
      [MobileNetV2__init__] is built from them; [Conv2d.init],
      [BatchNorm2d.init] and [Linear.init] are the layers once the checks
      have passed.  The memory a tensor needs is not modelled: statements
      that a construction completes are made for configurations no larger
      than the default one. *)

From Stdlib Require Import ZArith QArith Qround Qpower Bool List Lia Lqa.
Import ListNotations.

Local Open Scope Z_scope.

(** ** Exceptions *)

Module Py.

Inductive Exception : Set :=
| ZeroDivisionError
| OverflowError
| ValueError
| RuntimeError.

Inductive Result (A : Type) : Type :=
| OK (a : A)
| Raise (e : Exception).

Arguments OK {A} a.
Arguments Raise {A} e.

Definition bind {A B : Type} (m : Result A) (k : A -> Result B) : Result B :=
  match m with
  | OK a => k a
  | Raise e => Raise e
  end.

(** [a // b] on integers. *)
Definition floordiv (a b : Z) : Result Z :=
  if b =? 0 then Raise ZeroDivisionError else OK (a / b).

(** [int(x)] on a float: truncation toward zero. *)
Definition int (x : Q) : Z := Z.quot (Qnum x) (Zpos (Qden x)).

(** [a < b] on numbers, as a boolean. *)
Definition lt (a b : Q) : bool := negb (Qle_bool b a).

End Py.

Import Py.

Notation "x <- m ;; k" := (Py.bind m (fun x => k))
  (at level 61, m at next level, right associativity).

(** ** [_make_divisible] *)

(** [_make_divisible(ch, divisor=8, min_ch=None)], lines 5-23, with the
    sum [ch + divisor / 2] and the product [0.9 * ch] computed exactly. *)
Definition _make_divisible (ch : Q) (divisor : Z) (min_ch : option Z) : Result Z :=
  let min_ch := match min_ch with
                | None => divisor
                | Some m => m
                end in
  q <- floordiv (int (ch + inject_Z divisor / 2)) divisor ;;
  let new_ch := Z.max min_ch (q * divisor) in
  if lt (inject_Z new_ch) ((9 # 10) * ch)
  then OK (new_ch + divisor)
  else OK new_ch.

(** The rounding rule in the words of the specification (section 4.1), in
    exact arithmetic: the candidate is the nearest multiple of [divisor],
    floored at [min_channels]; one [divisor] is added when the candidate
    undershoots [raw] by more than 10%. *)
Definition round_channels (raw : Q) (divisor : Z) (min_channels : option Z) : Z :=
  let min_channels := match min_channels with
                      | None => divisor
                      | Some m => m
                      end in
  let candidate :=
    Z.max min_channels (Qfloor ((raw + inject_Z divisor / 2) / inject_Z divisor) * divisor) in
  if Qlt_le_dec (inject_Z candidate) ((9 # 10) * raw)
  then candidate + divisor
  else candidate.

(** ** Binary64 arithmetic

    Python's [float] is IEEE 754 binary64 with rounding to nearest, ties to
    even.  A finite float is represented by the rational it denotes; an
    operation computes the exact rational result and rounds it.  The sign of
    zero is not represented: nothing in the source depends on it. *)

Module B64.

Definition pow2 (e : Z) : Q := Qpower 2 e.

(** [floor (log2 y)] for [y > 0]. *)
Definition ilog2 (y : Q) : Z :=
  let k := Z.log2 (Qnum y) - Z.log2 (Zpos (Qden y)) in
  if Qle_bool (pow2 k) y then k else k - 1.

(** Nearest integer, ties to even. *)
Definition rne (q : Q) : Z :=
  let f := Qfloor q in
  match (q - inject_Z f ?= 1 # 2)%Q with
  | Lt => f
  | Gt => f + 1
  | Eq => if Z.even f then f else f + 1
  end.

(** Exponent of the last place of [y > 0]: 53 significant bits, and no
    exponent below that of the subnormal numbers. *)
Definition ex (y : Q) : Z := Z.max (ilog2 y - 52) (-1074).

Definition round_pos (y : Q) : Q :=
  inject_Z (rne (y * pow2 (- ex y))) * pow2 (ex y).

(** The binary64 number nearest to [y], the exponent left unbounded above. *)
Definition b64 (y : Q) : Q :=
  match (0 ?= y)%Q with
  | Lt => round_pos y
  | Eq => 0
  | Gt => - round_pos (- y)
  end.

Inductive float : Set :=
| Finite (q : Q)
| Infinity (negative : bool)
| NaN.

Definition overflow : Q := pow2 1024.

(** Rounding of an exact result, with overflow to infinity. *)
Definition round (y : Q) : float :=
  let r := b64 y in
  if Qle_bool overflow r then Infinity false
  else if Qle_bool r (- overflow) then Infinity true
  else Finite r.

(** [x + y] on floats. *)
Definition add (x y : float) : float :=
  match x, y with
  | NaN, _ | _, NaN => NaN
  | Infinity a, Infinity b => if Bool.eqb a b then Infinity a else NaN
  | Infinity a, Finite _ => Infinity a
  | Finite _, Infinity b => Infinity b
  | Finite a, Finite b => round (a + b)
  end.

(** [x * y] on floats. *)
Definition mul (x y : float) : float :=
  match x, y with
  | NaN, _ | _, NaN => NaN
  | Infinity a, Infinity b => Infinity (xorb a b)
  | Infinity a, Finite q | Finite q, Infinity a =>
      if Qeq_bool q 0 then NaN else Infinity (xorb a (Py.lt q 0))
  | Finite a, Finite b => round (a * b)
  end.

(** [float(n)] for an integer, as in mixed arithmetic. *)
Definition of_int (n : Z) : Py.Result float :=
  match round (inject_Z n) with
  | Finite q => Py.OK (Finite q)
  | _ => Py.Raise Py.OverflowError
  end.

(** [n * x] for an integer [n] and a float [x]. *)
Definition mul_int (n : Z) (x : float) : Py.Result float :=
  Py.bind (of_int n) (fun f => Py.OK (mul f x)).

(** [a / b] on integers: the quotient correctly rounded. *)
Definition truediv_int (a b : Z) : Py.Result float :=
  if b =? 0 then Py.Raise Py.ZeroDivisionError
  else match round (inject_Z a / inject_Z b) with
       | Finite q => Py.OK (Finite q)
       | _ => Py.Raise Py.OverflowError
       end.

(** [int(x)] on a float. *)
Definition int (x : float) : Py.Result Z :=
  match x with
  | Finite q => Py.OK (Py.int q)
  | Infinity _ => Py.Raise Py.OverflowError
  | NaN => Py.Raise Py.ValueError
  end.

(** [n < x] for an integer [n] and a float [x]: the comparison is exact. *)
Definition lt_int (n : Z) (x : float) : bool :=
  match x with
  | Finite q => Py.lt (inject_Z n) q
  | Infinity negative => negb negative
  | NaN => false
  end.

(** The literal [0.9]. *)
Definition c09 : float := round (9 # 10).

(** The rational [q] is a finite binary64 number. *)
Definition representable (q : Q) : Prop :=
  (b64 q == q)%Q /\ (- overflow < q)%Q /\ (q < overflow)%Q.

End B64.

(** [_make_divisible(ch, divisor=8, min_ch=None)], lines 5-23, for a float
    [ch], in binary64 arithmetic and with the exceptions of [int()]. *)
Definition _make_divisible_b64 (ch : B64.float) (divisor : Z) (min_ch : option Z)
  : Result Z :=
  let min_ch := match min_ch with
                | None => divisor
                | Some m => m
                end in
  half <- B64.truediv_int divisor 2 ;;
  i <- B64.int (B64.add ch half) ;;
  q <- floordiv i divisor ;;
  let new_ch := Z.max min_ch (q * divisor) in
  if B64.lt_int new_ch (B64.mul B64.c09 ch)
  then OK (new_ch + divisor)
  else OK new_ch.

(** The rounding rule in the words of the specification (section 4.1), each
    floating-point operation ([divisor/2], the sum and the product with the
    literal 0.9) rounded to binary64, for a finite [raw] and results that do
    not overflow. *)
Definition round_channels_b64 (raw : Q) (divisor : Z) (min_channels : option Z) : Z :=
  let min_channels := match min_channels with
                      | None => divisor
                      | Some m => m
                      end in
  let half := B64.b64 (inject_Z divisor / 2) in
  let sum := B64.b64 (raw + half) in
  let candidate :=
    Z.max min_channels (Qfloor (sum / inject_Z divisor) * divisor) in
  if Qlt_le_dec (inject_Z candidate) (B64.b64 (B64.b64 (9 # 10) * raw))
  then candidate + divisor
  else candidate.

(** ** Parameter tensors and the layers of the tensor library *)

(** [mode] argument of [nn.init.kaiming_normal_]. *)
Inductive FanMode : Set := fan_in | fan_out.

(** The in-place fills of [nn.init] used by the source. *)
Inductive Init : Set :=
| kaiming_normal_ (mode : FanMode)
| normal_ (mean std : Q)
| ones_
| zeros_.

(** A parameter tensor: the fills applied to it since it was created, oldest
    first.  The content is that of the last fill. *)
Record Param : Set := { fills : list Init }.

Definition fresh : Param := {| fills := [] |}.

Definition fill (i : Init) (p : Param) : Param :=
  {| fills := fills p ++ [i] |}.


Module Conv2d.
Record t : Set := mk {
  in_channels : Z;
  out_channels : Z;
  kernel_size : Z;
  stride : Z;
  padding : Z;
  groups : Z;
  weight : Param;
  bias : option Param
}.

(** The layer [nn.Conv2d(in_channels, out_channels, kernel_size, stride=1,
    padding=0, groups=1, bias=True)] builds when it accepts its arguments
    (see [nn_Conv2d]). *)
Definition init (in_channels out_channels kernel_size stride padding groups : Z)
           (bias : bool) : t :=
  mk in_channels out_channels kernel_size stride padding groups
     fresh (if bias then Some fresh else None).
End Conv2d.

Module BatchNorm2d.
Record t : Set := mk {
  num_features : Z;
  weight : Param;
  bias : Param
}.

(** The layer [nn.BatchNorm2d(num_features)] builds (see
    [nn_BatchNorm2d]). *)
Definition init (num_features : Z) : t := mk num_features fresh fresh.
End BatchNorm2d.

Module Linear.
Record t : Set := mk {
  in_features : Z;
  out_features : Z;
  weight : Param;
  bias : Param
}.

(** The layer [nn.Linear(in_features, out_features, bias=True)] builds
    when it accepts its arguments (see [nn_Linear]). *)
Definition init (in_features out_features : Z) : t :=
  mk in_features out_features fresh fresh.
End Linear.

(** The primitive (childless) modules the network is made of. *)
Inductive Layer : Set :=
| Conv2d_ (c : Conv2d.t)
| BatchNorm2d_ (b : BatchNorm2d.t)
| ReLU6_ (inplace : bool)
| AdaptiveAvgPool2d_ (h w : Z)
| Dropout_ (p : Q)
| Linear_ (l : Linear.t).

(** The loop body of the weight initialisation, lines 114-123: dispatch on
    the class of the module [m]. *)
Definition init_module (m : Layer) : Layer :=
  match m with
  | Conv2d_ c =>
      Conv2d_ (Conv2d.mk (Conv2d.in_channels c) (Conv2d.out_channels c)
                 (Conv2d.kernel_size c) (Conv2d.stride c) (Conv2d.padding c)
                 (Conv2d.groups c)
                 (fill (kaiming_normal_ fan_out) (Conv2d.weight c))
                 (match Conv2d.bias c with
                  | Some b => Some (fill zeros_ b)
                  | None => None
                  end))
  | BatchNorm2d_ b =>
      BatchNorm2d_ (BatchNorm2d.mk (BatchNorm2d.num_features b)
                      (fill ones_ (BatchNorm2d.weight b))
                      (fill zeros_ (BatchNorm2d.bias b)))
  | Linear_ l =>
      Linear_ (Linear.mk (Linear.in_features l) (Linear.out_features l)
                 (fill (normal_ 0 (1 # 100)) (Linear.weight l))
                 (fill zeros_ (Linear.bias l)))
  | _ => m
  end.

(** ** [ConvBNReLU] *)

Module ConvBNReLU.
(** A [nn.Sequential]: the ordered children. *)
Record t : Set := mk { children : list Layer }.

(** [ConvBNReLU(in_channel, out_channel, kernel_size=3, stride=1, groups=1)],
    lines 30-37. *)
Definition init (in_channel out_channel kernel_size stride groups : Z) : t :=
  let padding := (kernel_size - 1) / 2 in
  mk [ Conv2d_ (Conv2d.init in_channel out_channel kernel_size stride padding groups false);
       BatchNorm2d_ (BatchNorm2d.init out_channel);
       ReLU6_ true ].

Definition modules (m : t) : list Layer := children m.

Definition map_modules (f : Layer -> Layer) (m : t) : t := mk (map f (children m)).

(** The convolution the unit starts with. *)
Definition conv (m : t) : option Conv2d.t :=
  match children m with
  | Conv2d_ c :: _ => Some c
  | _ => None
  end.
End ConvBNReLU.

(** ** [InvertedResidual] *)

Module InvertedResidual.
(** A child of the block's [conv] pipeline. *)
Inductive Stage : Set :=
| Unit (u : ConvBNReLU.t)
| Prim (l : Layer).

Record t : Set := mk {
  use_shortcut : bool;
  conv : list Stage
}.

(** [InvertedResidual(in_channel, out_channel, stride, expand_ratio)],
    lines 44-63. *)
Definition init (in_channel out_channel stride expand_ratio : Z) : t :=
  let hidden_channel := in_channel * expand_ratio in
  let use_shortcut := (stride =? 1) && (in_channel =? out_channel) in
  let layers := [] in
  let layers :=
    if negb (expand_ratio =? 1)
    then layers ++ [Unit (ConvBNReLU.init in_channel hidden_channel 1 1 1)]
    else layers in
  let layers :=
    layers ++
      [ Unit (ConvBNReLU.init hidden_channel hidden_channel 3 stride hidden_channel);
        Prim (Conv2d_ (Conv2d.init hidden_channel out_channel 1 1 0 1 false));
        Prim (BatchNorm2d_ (BatchNorm2d.init out_channel)) ] in
  mk use_shortcut layers.

Definition stage_modules (s : Stage) : list Layer :=
  match s with
  | Unit u => ConvBNReLU.modules u
  | Prim l => [l]
  end.

Definition modules (b : t) : list Layer := flat_map stage_modules (conv b).

Definition map_stage (f : Layer -> Layer) (s : Stage) : Stage :=
  match s with
  | Unit u => Unit (ConvBNReLU.map_modules f u)
  | Prim l => Prim (f l)
  end.

Definition map_modules (f : Layer -> Layer) (b : t) : t :=
  mk (use_shortcut b) (map (map_stage f) (conv b)).

(** The convolutions of the pipeline, in order. *)
Definition convs (b : t) : list Conv2d.t :=
  flat_map (fun m => match m with Conv2d_ c => [c] | _ => [] end) (modules b).

(** The [ConvBNReLU] units of the pipeline, in order. *)
Definition units (b : t) : list ConvBNReLU.t :=
  flat_map (fun s => match s with Unit u => [u] | Prim _ => [] end) (conv b).

(** Channels accepted by the first convolution of the pipeline. *)
Definition in_channels (b : t) : option Z :=
  option_map Conv2d.in_channels (hd_error (convs b)).

(** Channels produced by the last convolution of the pipeline. *)
Definition out_channels (b : t) : option Z :=
  option_map Conv2d.out_channels (hd_error (rev (convs b))).

(** Stride of the spatial (3x3 depthwise) unit: the last [ConvBNReLU]. *)
Definition stride (b : t) : option Z :=
  match hd_error (rev (units b)) with
  | Some u => option_map Conv2d.stride (ConvBNReLU.conv u)
  | None => None
  end.
End InvertedResidual.

(** ** [MobileNetV2] *)

Module MobileNetV2.
(** An element of the [features] sequence. *)
Inductive Feature : Set :=
| Unit (u : ConvBNReLU.t)
| Block (b : InvertedResidual.t).

Record t : Set := mk {
  features : list Feature;
  avgpool : Layer;
  classifier : list Layer
}.

Definition feature_modules (f : Feature) : list Layer :=
  match f with
  | Unit u => ConvBNReLU.modules u
  | Block b => InvertedResidual.modules b
  end.

(** The primitive modules that [self.modules()] yields, in its order
    (children in registration order: [features], [avgpool], [classifier]).
    The containers it also yields ([MobileNetV2], [nn.Sequential],
    [ConvBNReLU], [InvertedResidual]) own no parameter and match none of
    the three classes the initialisation dispatches on. *)
Definition modules (net : t) : list Layer :=
  flat_map feature_modules (features net) ++ [avgpool net] ++ classifier net.

Definition map_feature (f : Layer -> Layer) (x : Feature) : Feature :=
  match x with
  | Unit u => Unit (ConvBNReLU.map_modules f u)
  | Block b => Block (InvertedResidual.map_modules f b)
  end.

(** [for m in self.modules(): body(m)] for a body that updates [m] in
    place.  Every module object of the network comes from a constructor call
    of its own and is placed once, so [self.modules()], which yields an
    object once however often it is reachable, yields each position of the
    structure exactly once. *)
Definition for_modules (body : Layer -> Layer) (net : t) : t :=
  mk (map (map_feature body) (features net))
     (body (avgpool net))
     (map body (classifier net)).

(** [t, c, n, s] rows, lines 79-88. *)
Definition inverted_residual_setting : list (Z * Z * Z * Z) :=
  [ (1, 16, 1, 1);
    (6, 24, 2, 2);
    (6, 32, 3, 2);
    (6, 64, 4, 2);
    (6, 96, 3, 1);
    (6, 160, 3, 2);
    (6, 320, 1, 1) ].

(** [range(n)]. *)
Definition range (n : Z) : list Z := map Z.of_nat (seq 0 (Z.to_nat n)).

(** The state the two loops of lines 94-99 update: the [features] list and
    [input_channel]. *)
Definition State : Set := (list Feature * Z)%type.

(** Body of [for i in range(n)], lines 97-99. *)
Definition block_body (t s output_channel : Z) (st : State) (i : Z) : State :=
  let '(features, input_channel) := st in
  let stride := if i =? 0 then s else 1 in
  (features ++ [Block (InvertedResidual.init input_channel output_channel stride t)],
   output_channel).

(** Body of [for t, c, n, s in setting], lines 95-99. *)
Definition stage_body (alpha : Q) (round_nearest : Z) (st : State)
           (row : Z * Z * Z * Z) : Result State :=
  let '(t, c, n, s) := row in
  output_channel <- _make_divisible (inject_Z c * alpha) round_nearest None ;;
  OK (fold_left (block_body t s output_channel) (range n) st).

Fixpoint stages (alpha : Q) (round_nearest : Z) (setting : list (Z * Z * Z * Z))
         (st : State) : Result State :=
  match setting with
  | [] => OK st
  | row :: rest =>
      st' <- stage_body alpha round_nearest st row ;;
      stages alpha round_nearest rest st'
  end.

(** Lines 75-110: the network as assembled, before the initialisation. *)
Definition assemble (num_classes : Z) (alpha : Q) (round_nearest : Z) : Result t :=
  input_channel <- _make_divisible (inject_Z 32 * alpha) round_nearest None ;;
  last_channel <- _make_divisible (inject_Z 1280 * alpha) round_nearest None ;;
  let features := [Unit (ConvBNReLU.init 3 input_channel 3 2 1)] in
  st <- stages alpha round_nearest inverted_residual_setting (features, input_channel) ;;
  let '(features, input_channel) := st in
  let features := features ++ [Unit (ConvBNReLU.init input_channel last_channel 1 1 1)] in
  OK (mk features
         (AdaptiveAvgPool2d_ 1 1)
         [Dropout_ (2 # 10); Linear_ (Linear.init last_channel num_classes)]).

(** [MobileNetV2(num_classes=1000, alpha=1.0, round_nearest=8)],
    lines 73-123, with the widths in exact arithmetic and layers whose
    arguments the library accepts. *)
Definition init (num_classes : Z) (alpha : Q) (round_nearest : Z) : Result t :=
  net <- assemble num_classes alpha round_nearest ;;
  OK (for_modules init_module net).

(** The inverted-residual blocks of a feature sequence, in order. *)
Definition blocks (fs : list Feature) : list InvertedResidual.t :=
  flat_map (fun f => match f with Block b => [b] | Unit _ => [] end) fs.

(** The [ConvBNReLU] units that are direct elements of a feature sequence. *)
Definition units (fs : list Feature) : list ConvBNReLU.t :=
  flat_map (fun f => match f with Unit u => [u] | Block _ => [] end) fs.
End MobileNetV2.

(** ** The constructors with the checks of the tensor library

    The constructors of [torch.nn] reject some arguments.  The checks are
    those of the library (torch/nn/modules/conv.py, batchnorm.py, linear.py),
    which is not part of the source: [nn.Conv2d] raises [ValueError] unless
    [groups] is positive and divides both channel counts, and creating a
    parameter tensor with a negative dimension raises [RuntimeError]. *)

Definition nn_Conv2d (in_channels out_channels kernel_size stride padding groups : Z)
           (bias : bool) : Result Conv2d.t :=
  if groups <=? 0 then Raise ValueError
  else if negb (in_channels mod groups =? 0) then Raise ValueError
  else if negb (out_channels mod groups =? 0) then Raise ValueError
  else if (out_channels <? 0) || (in_channels / groups <? 0) || (kernel_size <? 0)
  then Raise RuntimeError
  else OK (Conv2d.init in_channels out_channels kernel_size stride padding groups bias).

Definition nn_BatchNorm2d (num_features : Z) : Result BatchNorm2d.t :=
  if num_features <? 0 then Raise RuntimeError
  else OK (BatchNorm2d.init num_features).

Definition nn_Linear (in_features out_features : Z) : Result Linear.t :=
  if (out_features <? 0) || (in_features <? 0) then Raise RuntimeError
  else OK (Linear.init in_features out_features).

(** [ConvBNReLU(in_channel, out_channel, kernel_size=3, stride=1, groups=1)],
    lines 30-37. *)
Definition ConvBNReLU__init__ (in_channel out_channel kernel_size stride groups : Z)
  : Result ConvBNReLU.t :=
  let padding := (kernel_size - 1) / 2 in
  conv <- nn_Conv2d in_channel out_channel kernel_size stride padding groups false ;;
  bn <- nn_BatchNorm2d out_channel ;;
  OK (ConvBNReLU.mk [Conv2d_ conv; BatchNorm2d_ bn; ReLU6_ true]).

(** [InvertedResidual(in_channel, out_channel, stride, expand_ratio)],
    lines 44-63. *)
Definition InvertedResidual__init__ (in_channel out_channel stride expand_ratio : Z)
  : Result InvertedResidual.t :=
  let hidden_channel := in_channel * expand_ratio in
  let use_shortcut := (stride =? 1) && (in_channel =? out_channel) in
  let layers := [] in
  layers <- (if negb (expand_ratio =? 1)
             then u <- ConvBNReLU__init__ in_channel hidden_channel 1 1 1 ;;
                  OK (layers ++ [InvertedResidual.Unit u])
             else OK layers) ;;
  dw <- ConvBNReLU__init__ hidden_channel hidden_channel 3 stride hidden_channel ;;
  proj <- nn_Conv2d hidden_channel out_channel 1 1 0 1 false ;;
  bn <- nn_BatchNorm2d out_channel ;;
  OK (InvertedResidual.mk use_shortcut
        (layers ++ [ InvertedResidual.Unit dw;
                     InvertedResidual.Prim (Conv2d_ proj);
                     InvertedResidual.Prim (BatchNorm2d_ bn) ])).

(** The loop [for i in idx], lines 96-99. *)
Fixpoint blocks_loop (t s output_channel : Z) (idx : list Z) (st : MobileNetV2.State)
  : Result MobileNetV2.State :=
  match idx with
  | [] => OK st
  | i :: rest =>
      let '(features, input_channel) := st in
      let stride := if i =? 0 then s else 1 in
      b <- InvertedResidual__init__ input_channel output_channel stride t ;;
      blocks_loop t s output_channel rest
                  (features ++ [MobileNetV2.Block b], output_channel)
  end.

(** The loop over the stage table, lines 94-99. *)
Fixpoint stages_loop (alpha : B64.float) (round_nearest : Z)
         (setting : list (Z * Z * Z * Z)) (st : MobileNetV2.State)
  : Result MobileNetV2.State :=
  match setting with
  | [] => OK st
  | (t, c, n, s) :: rest =>
      ch <- B64.mul_int c alpha ;;
      output_channel <- _make_divisible_b64 ch round_nearest None ;;
      st' <- blocks_loop t s output_channel (MobileNetV2.range n) st ;;
      stages_loop alpha round_nearest rest st'
  end.

(** [MobileNetV2(num_classes=1000, alpha=1.0, round_nearest=8)], lines
    73-123, for a float [alpha]: binary64 arithmetic in the widths, and the
    library's checks in the layers. *)
Definition MobileNetV2__init__ (num_classes : Z) (alpha : B64.float) (round_nearest : Z)
  : Result MobileNetV2.t :=
  ch <- B64.mul_int 32 alpha ;;
  input_channel <- _make_divisible_b64 ch round_nearest None ;;
  ch <- B64.mul_int 1280 alpha ;;
  last_channel <- _make_divisible_b64 ch round_nearest None ;;
  stem <- ConvBNReLU__init__ 3 input_channel 3 2 1 ;;
  st <- stages_loop alpha round_nearest MobileNetV2.inverted_residual_setting
                    ([MobileNetV2.Unit stem], input_channel) ;;
  let '(features, input_channel) := st in
  head <- ConvBNReLU__init__ input_channel last_channel 1 1 1 ;;
  linear <- nn_Linear last_channel num_classes ;;
  OK (MobileNetV2.for_modules init_module
        (MobileNetV2.mk (features ++ [MobileNetV2.Unit head])
                        (AdaptiveAvgPool2d_ 1 1)
                        [Dropout_ (2 # 10); Linear_ linear])).

(** The width [_make_divisible(c * alpha, round_nearest)] in binary64 (0
    stands for an exception). *)
Definition width_b64 (alpha : B64.float) (round_nearest c : Z) : Z :=
  match (ch <- B64.mul_int c alpha ;; _make_divisible_b64 ch round_nearest None) with
  | OK v => v
  | Raise _ => 0
  end.

(** ** Forward passes *)

Section Forward.

Variable Tensor : Type.
(** Forward map of each primitive module, tensor addition and
    [torch.flatten(x, 1)], supplied by the tensor library. *)
Variable apply : Layer -> Tensor -> Tensor.
Variable add : Tensor -> Tensor -> Tensor.
Variable flatten : Tensor -> Tensor.

(** [nn.Sequential.forward]. *)
Definition Sequential_forward (layers : list Layer) (x : Tensor) : Tensor :=
  fold_left (fun x l => apply l x) layers x.

Definition Stage_forward (s : InvertedResidual.Stage) (x : Tensor) : Tensor :=
  match s with
  | InvertedResidual.Unit u => Sequential_forward (ConvBNReLU.children u) x
  | InvertedResidual.Prim l => apply l x
  end.

(** [self.conv(x)] of a block. *)
Definition pipeline (b : InvertedResidual.t) (x : Tensor) : Tensor :=
  fold_left (fun x s => Stage_forward s x) (InvertedResidual.conv b) x.

(** [InvertedResidual.forward], lines 65-69. *)
Definition InvertedResidual_forward (b : InvertedResidual.t) (x : Tensor) : Tensor :=
  if InvertedResidual.use_shortcut b
  then add x (pipeline b x)
  else pipeline b x.

Definition Feature_forward (f : MobileNetV2.Feature) (x : Tensor) : Tensor :=
  match f with
  | MobileNetV2.Unit u => Sequential_forward (ConvBNReLU.children u) x
  | MobileNetV2.Block b => InvertedResidual_forward b x
  end.

(** [MobileNetV2.forward], lines 125-131. *)
Definition MobileNetV2_forward (net : MobileNetV2.t) (x : Tensor) : Tensor :=
  let x := fold_left (fun x f => Feature_forward f x) (MobileNetV2.features net) x in
  let x := apply (MobileNetV2.avgpool net) x in
  let x := flatten x in
  Sequential_forward (MobileNetV2.classifier net) x.

End Forward.

(** ** Vocabulary of the properties *)



(** Output channels of the stem, the first element of [features]. *)
Definition stem_channels (net : MobileNetV2.t) : option Z :=
  match MobileNetV2.features net with
  | MobileNetV2.Unit u :: _ => option_map Conv2d.out_channels (ConvBNReLU.conv u)
  | _ => None
  end.

(** Strides of the blocks of a stage as the specification gives them: the
    stage's stride for block 0, stride 1 for the remaining [n - 1]. *)
Definition stage_strides (n : Z) (s : Z) : list Z :=
  match Z.to_nat n with
  | O => []
  | S k => s :: repeat 1 k
  end.


(** The blocks [for i in idx] appends for one stage, and the value of
    [input_channel] after them. *)
Fixpoint stage_blocks (t s output_channel input_channel : Z) (idx : list Z)
  : list InvertedResidual.t :=
  match idx with
  | [] => []
  | i :: rest =>
      InvertedResidual.init input_channel output_channel (if i =? 0 then s else 1) t
        :: stage_blocks t s output_channel output_channel rest
  end.

Definition channel_after (output_channel input_channel : Z) (idx : list Z) : Z :=
  match idx with
  | [] => input_channel
  | _ :: _ => output_channel
  end.

(** [chain a bs b]: the blocks [bs] pass channels left to right, the first
    accepting [a] channels and the last producing [b]. *)
Inductive chain : Z -> list InvertedResidual.t -> Z -> Prop :=
| chain_nil (a : Z) : chain a [] a
| chain_cons (a b c : Z) (blk : InvertedResidual.t) (bs : list InvertedResidual.t) :
    InvertedResidual.in_channels blk = Some a ->
    InvertedResidual.out_channels blk = Some b ->
    chain b bs c ->
    chain a (blk :: bs) c.

(** Strides of all blocks, stage after stage, for a stage table. *)
Definition setting_strides (setting : list (Z * Z * Z * Z)) : list Z :=
  flat_map (fun row => let '(_, _, n, s) := row in stage_strides n s) setting.

(** A block object as the constructor makes it. *)
Definition built (b : InvertedResidual.t) : Prop :=
  exists in_channel out_channel stride expand_ratio,
    b = InvertedResidual.init in_channel out_channel stride expand_ratio.

(** The value [_make_divisible(c * alpha, round_nearest)] returns (0 stands
    for the exception of granularity 0). *)
Definition width (alpha : Q) (round_nearest c : Z) : Z :=
  match _make_divisible (inject_Z c * alpha) round_nearest None with
  | OK v => v
  | Raise _ => 0
  end.

(** The blocks the two loops append for a stage table, given the rounded
    width [w c] of each row, and the value of [input_channel] after them. *)
Fixpoint setting_blocks (w : Z -> Z) (input_channel : Z)
         (setting : list (Z * Z * Z * Z)) : list InvertedResidual.t :=
  match setting with
  | [] => []
  | (t, c, n, s) :: rest =>
      stage_blocks t s (w c) input_channel (MobileNetV2.range n)
        ++ setting_blocks w (channel_after (w c) input_channel (MobileNetV2.range n)) rest
  end.

Fixpoint setting_channel (w : Z -> Z) (input_channel : Z)
         (setting : list (Z * Z * Z * Z)) : Z :=
  match setting with
  | [] => input_channel
  | (_, c, n, _) :: rest =>
      setting_channel w (channel_after (w c) input_channel (MobileNetV2.range n)) rest
  end.

(** Output widths of all blocks, stage after stage: [n] times the rounded
    width of the row. *)
Definition setting_widths (w : Z -> Z) (setting : list (Z * Z * Z * Z)) : list Z :=
  flat_map (fun row => let '(_, c, n, _) := row in repeat (w c) (Z.to_nat n)) setting.

(** The class of a primitive module. *)
Inductive Kind : Set :=
| Conv2d_kind
| BatchNorm2d_kind
| ReLU6_kind
| AdaptiveAvgPool2d_kind
| Dropout_kind
| Linear_kind.

Definition kind (m : Layer) : Kind :=
  match m with
  | Conv2d_ _ => Conv2d_kind
  | BatchNorm2d_ _ => BatchNorm2d_kind
  | ReLU6_ _ => ReLU6_kind
  | AdaptiveAvgPool2d_ _ _ => AdaptiveAvgPool2d_kind
  | Dropout_ _ => Dropout_kind
  | Linear_ _ => Linear_kind
  end.

Definition Kind_eqb (a b : Kind) : bool :=
  match a, b with
  | Conv2d_kind, Conv2d_kind
  | BatchNorm2d_kind, BatchNorm2d_kind
  | ReLU6_kind, ReLU6_kind
  | AdaptiveAvgPool2d_kind, AdaptiveAvgPool2d_kind
  | Dropout_kind, Dropout_kind
  | Linear_kind, Linear_kind => true
  | _, _ => false
  end.

(** Number of modules of class [k] in a list of modules. *)
Definition count (k : Kind) (ms : list Layer) : nat :=
  length (filter (fun m => Kind_eqb k (kind m)) ms).

(** The three shapes of convolution. *)
Definition pointwise (c : Conv2d.t) : Prop :=
  Conv2d.kernel_size c = 1 /\ Conv2d.padding c = 0 /\
  Conv2d.stride c = 1 /\ Conv2d.groups c = 1.

Definition depthwise (c : Conv2d.t) : Prop :=
  Conv2d.kernel_size c = 3 /\ Conv2d.padding c = 1 /\
  Conv2d.groups c = Conv2d.in_channels c /\
  Conv2d.out_channels c = Conv2d.in_channels c.

Definition image_conv (c : Conv2d.t) : Prop :=
  Conv2d.kernel_size c = 3 /\ Conv2d.padding c = 1 /\
  Conv2d.stride c = 2 /\ Conv2d.groups c = 1 /\ Conv2d.in_channels c = 3.

(** A positive multiple of [d]. *)
Definition aligned (d x : Z) : Prop := exists k, 1 <= k /\ x = d * k.

(** A module whose channel counts, if it is a convolution, are positive
    multiples of [d]; the convolution that reads the 3-channel image is
    excused for its input. *)
Definition conv_aligned (d : Z) (m : Layer) : Prop :=
  match m with
  | Conv2d_ c =>
      aligned d (Conv2d.out_channels c) /\
      (aligned d (Conv2d.in_channels c) \/ image_conv c)
  | _ => True
  end.

(** A module which, if it is a convolution, has one of the three shapes. *)
Definition conv_shaped (m : Layer) : Prop :=
  match m with
  | Conv2d_ c => pointwise c \/ depthwise c \/ image_conv c
  | _ => True
  end.

(** ** Arithmetic of the rounding rule *)

Section Rounding.

Lemma lt_spec (a b : Q) : lt a b = true <-> (a < b)%Q.
Proof.
  unfold lt. rewrite negb_true_iff.
  split; intro H.
  - apply Qnot_le_lt. intro Hle. apply Qle_bool_iff in Hle. congruence.
  - destruct (Qle_bool b a) eqn:E; [|reflexivity].
    apply Qle_bool_iff in E. exfalso. apply (Qlt_not_le _ _ H E).
Qed.

Lemma lt_false (a b : Q) : lt a b = false <-> (b <= a)%Q.
Proof.
  unfold lt. rewrite negb_false_iff. apply Qle_bool_iff.
Qed.

(** On a non-negative number truncation is the floor. *)
Lemma int_floor (x : Q) : (0 <= x)%Q -> int x = Qfloor x.
Proof.
  intros Hx. unfold int, Qfloor. destruct x as [n d]. simpl.
  apply Z.quot_div_nonneg; [|lia].
  unfold Qle in Hx. simpl in Hx. lia.
Qed.

Lemma floor_div (x : Q) (d : Z) :
  0 < d -> Qfloor (x / inject_Z d) = Qfloor x / d.
Proof.
  intros Hd. destruct d as [|p|p]; try lia.
  destruct x as [n m]. unfold Qfloor, Qdiv, Qmult, Qinv, inject_Z. simpl.
  rewrite Z.mul_1_r, Pos2Z.inj_mul.
  rewrite Z.div_div by lia. reflexivity.
Qed.

End Rounding.

(** ** The rounding rule: [_make_divisible] *)

Section MakeDivisible.

(** With a non-zero divisor the function returns, and the value is the
    candidate or the candidate plus one divisor. *)
Lemma _make_divisible_eq (ch : Q) (divisor : Z) (min_ch : option Z) :
  divisor <> 0 ->
  let m := match min_ch with None => divisor | Some m => m end in
  let new_ch := Z.max m (int (ch + inject_Z divisor / 2) / divisor * divisor) in
  _make_divisible ch divisor min_ch =
    OK (if lt (inject_Z new_ch) ((9 # 10) * ch) then new_ch + divisor else new_ch).
Proof.
  intros Hd m new_ch. unfold _make_divisible, floordiv.
  apply Z.eqb_neq in Hd. rewrite Hd. cbn [bind].
  fold m. fold new_ch.
  destruct (lt (inject_Z new_ch) ((9 # 10) * ch)); reflexivity.
Qed.

Lemma _make_divisible_returns (ch : Q) (divisor : Z) (min_ch : option Z) :
  divisor <> 0 -> exists v, _make_divisible ch divisor min_ch = OK v.
Proof.
  intros Hd. rewrite (_make_divisible_eq ch divisor min_ch Hd). eauto.
Qed.

Lemma _make_divisible_raises (ch : Q) (min_ch : option Z) :
  _make_divisible ch 0 min_ch = Raise ZeroDivisionError.
Proof. reflexivity. Qed.

End MakeDivisible.

(** ** Blocks *)

Section Blocks.

Variables in_channel out_channel stride expand_ratio : Z.

Abbreviation b := (InvertedResidual.init in_channel out_channel stride expand_ratio).
Abbreviation hidden_channel := (in_channel * expand_ratio).

Lemma conv_init :
  InvertedResidual.conv b =
    (if expand_ratio =? 1
     then []
     else [InvertedResidual.Unit (ConvBNReLU.init in_channel hidden_channel 1 1 1)])
    ++ [ InvertedResidual.Unit
           (ConvBNReLU.init hidden_channel hidden_channel 3 stride hidden_channel);
         InvertedResidual.Prim
           (Conv2d_ (Conv2d.init hidden_channel out_channel 1 1 0 1 false));
         InvertedResidual.Prim (BatchNorm2d_ (BatchNorm2d.init out_channel)) ].
Proof.
  unfold InvertedResidual.init. cbn [InvertedResidual.conv].
  destruct (expand_ratio =? 1); reflexivity.
Qed.

Lemma in_channels_init : InvertedResidual.in_channels b = Some in_channel.
Proof.
  unfold InvertedResidual.in_channels, InvertedResidual.convs, InvertedResidual.modules.
  rewrite conv_init. destruct (expand_ratio =? 1) eqn:E; cbn.
  - apply Z.eqb_eq in E. rewrite E. f_equal. lia.
  - reflexivity.
Qed.

Lemma out_channels_init : InvertedResidual.out_channels b = Some out_channel.
Proof.
  unfold InvertedResidual.out_channels, InvertedResidual.convs, InvertedResidual.modules.
  rewrite conv_init. destruct (expand_ratio =? 1); reflexivity.
Qed.

Lemma stride_init : InvertedResidual.stride b = Some stride.
Proof.
  unfold InvertedResidual.stride, InvertedResidual.units.
  rewrite conv_init. destruct (expand_ratio =? 1); reflexivity.
Qed.


Lemma in_channels_initialised :
  InvertedResidual.in_channels (InvertedResidual.map_modules init_module b) =
    Some in_channel.
Proof.
  unfold InvertedResidual.in_channels, InvertedResidual.convs, InvertedResidual.modules.
  cbn [InvertedResidual.map_modules InvertedResidual.conv]. rewrite conv_init.
  destruct (expand_ratio =? 1) eqn:E; cbn.
  - apply Z.eqb_eq in E. rewrite E. f_equal. lia.
  - reflexivity.
Qed.

Lemma out_channels_initialised :
  InvertedResidual.out_channels (InvertedResidual.map_modules init_module b) =
    Some out_channel.
Proof.
  unfold InvertedResidual.out_channels, InvertedResidual.convs, InvertedResidual.modules.
  cbn [InvertedResidual.map_modules InvertedResidual.conv]. rewrite conv_init.
  destruct (expand_ratio =? 1); reflexivity.
Qed.

Lemma stride_initialised :
  InvertedResidual.stride (InvertedResidual.map_modules init_module b) = Some stride.
Proof.
  unfold InvertedResidual.stride, InvertedResidual.units.
  cbn [InvertedResidual.map_modules InvertedResidual.conv]. rewrite conv_init.
  destruct (expand_ratio =? 1); reflexivity.
Qed.

End Blocks.

(** C3. A block built with [(in_channel, out_channel, stride, expand_ratio)]
    has its shortcut flag set if and only if [stride = 1] and
    [in_channel = out_channel]; the forward pass consults the flag stored at
    construction and nothing else (whatever flag a block object holds decides
    between the two results), and it returns [x + conv(x)] when the flag is
    set and [conv(x)] otherwise.  A (24, 24, stride 1) block uses the
    shortcut; a (24, 32, stride 1) block and every stride-2 block do not. *)
Theorem C3_shortcut_gating
        (Tensor : Type) (apply : Layer -> Tensor -> Tensor)
        (add : Tensor -> Tensor -> Tensor) :
  (forall in_channel out_channel stride expand_ratio : Z,
      let b := InvertedResidual.init in_channel out_channel stride expand_ratio in
      (InvertedResidual.use_shortcut b = true <->
       stride = 1 /\ in_channel = out_channel) /\
      (forall x : Tensor,
          InvertedResidual_forward Tensor apply add b x =
            if (stride =? 1) && (in_channel =? out_channel)
            then add x (pipeline Tensor apply b x)
            else pipeline Tensor apply b x))
  /\ (forall (flag : bool) (layers : list InvertedResidual.Stage) (x : Tensor),
         let b := InvertedResidual.mk flag layers in
         InvertedResidual_forward Tensor apply add b x =
           if flag then add x (pipeline Tensor apply b x) else pipeline Tensor apply b x)
  /\ (forall t : Z, InvertedResidual.use_shortcut (InvertedResidual.init 24 24 1 t) = true)
  /\ (forall t : Z, InvertedResidual.use_shortcut (InvertedResidual.init 24 32 1 t) = false)
  /\ (forall i o t : Z, InvertedResidual.use_shortcut (InvertedResidual.init i o 2 t) = false).
Proof.
  split; [|split; [|repeat split]].
  - intros i o s t b. split.
    + subst b. cbn [InvertedResidual.init InvertedResidual.use_shortcut].
      rewrite andb_true_iff, !Z.eqb_eq. reflexivity.
    + intros x. reflexivity.
  - intros flag layers x b. reflexivity.
Qed.

(** C6. In a block the hidden width is [in_channel * expand_ratio]: the
    spatial unit is the depthwise 3x3 [ConvBNReLU] on that many channels.  A
    1x1 [ConvBNReLU] unit from [in_channel] to the hidden width is in the
    pipeline if and only if [expand_ratio <> 1], and then it comes first.
    The pipeline ends with the projection: a 1x1 convolution without bias
    from the hidden width to [out_channel], then the normalisation, and
    nothing after it (no [ReLU6]). *)
Theorem C6_block_pipeline (in_channel out_channel stride expand_ratio : Z) :
  let b := InvertedResidual.init in_channel out_channel stride expand_ratio in
  let hidden_channel := in_channel * expand_ratio in
  let expansion := InvertedResidual.Unit (ConvBNReLU.init in_channel hidden_channel 1 1 1) in
  let spatial :=
    InvertedResidual.Unit
      (ConvBNReLU.init hidden_channel hidden_channel 3 stride hidden_channel) in
  (expand_ratio <> 1 <->
   exists u c,
     In (InvertedResidual.Unit u) (InvertedResidual.conv b) /\
     ConvBNReLU.conv u = Some c /\ Conv2d.kernel_size c = 1)
  /\ (expand_ratio <> 1 -> hd_error (InvertedResidual.conv b) = Some expansion)
  /\ nth_error (InvertedResidual.conv b) (if (expand_ratio =? 1)%Z then 0 else 1)%nat = Some spatial
  /\ length (InvertedResidual.conv b) = (if (expand_ratio =? 1)%Z then 3 else 4)%nat
  /\ exists front proj bn,
      InvertedResidual.modules b = front ++ [Conv2d_ proj; BatchNorm2d_ bn] /\
      Conv2d.in_channels proj = hidden_channel /\
      Conv2d.out_channels proj = out_channel /\
      Conv2d.kernel_size proj = 1 /\
      Conv2d.groups proj = 1 /\
      Conv2d.bias proj = None /\
      BatchNorm2d.num_features bn = out_channel.
Proof.
  intros b hidden_channel expansion spatial.
  pose proof (conv_init in_channel out_channel stride expand_ratio) as Hc.
  fold b in Hc. fold hidden_channel in Hc.
  unfold InvertedResidual.modules. rewrite Hc.
  destruct (expand_ratio =? 1) eqn:E.
  - apply Z.eqb_eq in E. repeat split.
    + intros Hne. contradiction.
    + intros (u & c & Hin & Hu & Hk). cbn in Hin.
      destruct Hin as [H|[H|[H|[]]]]; try discriminate.
      inversion H; subst u. cbn in Hu. inversion Hu; subst c. discriminate.
    + intros Hne. contradiction.
    + eexists [_; _; _], _, _. cbn. repeat split.
  - apply Z.eqb_neq in E. repeat split.
    + intros _. eexists _, _. split; [left; reflexivity|]. split; reflexivity.
    + intros _. exact E.
    + eexists [_; _; _; _; _; _], _, _. cbn. repeat split.
Qed.

Lemma C6_block_pipeline_witness :
  6 <> 1 /\
  hd_error (InvertedResidual.conv (InvertedResidual.init 16 24 2 6)) =
    Some (InvertedResidual.Unit (ConvBNReLU.init 16 (16 * 6) 1 1 1)).
Proof.
  split; [lia|].
  apply (proj1 (proj2 (C6_block_pipeline 16 24 2 6))). lia.
Defined.

(** ** Assembly of the feature sequence *)

Section Assembly.

Import MobileNetV2.

Lemma channel_after_same (oc : Z) (idx : list Z) : channel_after oc oc idx = oc.
Proof. destruct idx; reflexivity. Qed.

Lemma fold_block_body (t s oc : Z) (idx : list Z) :
  forall (fs : list Feature) (ic : Z),
    fold_left (block_body t s oc) idx (fs, ic) =
      (fs ++ map Block (stage_blocks t s oc ic idx), channel_after oc ic idx).
Proof.
  induction idx as [|i rest IH]; intros fs ic.
  - cbn. rewrite app_nil_r. reflexivity.
  - cbn [fold_left block_body stage_blocks map channel_after].
    rewrite IH, channel_after_same, <- app_assoc. reflexivity.
Qed.

Lemma chain_stage_blocks (t s oc : Z) (idx : list Z) :
  forall ic, chain ic (stage_blocks t s oc ic idx) (channel_after oc ic idx).
Proof.
  induction idx as [|i rest IH]; intros ic; cbn.
  - constructor.
  - apply chain_cons with (b := oc).
    + apply in_channels_init.
    + apply out_channels_init.
    + specialize (IH oc). rewrite channel_after_same in IH. exact IH.
Qed.

Lemma chain_app (a b c : Z) (l1 l2 : list InvertedResidual.t) :
  chain a l1 b -> chain b l2 c -> chain a (l1 ++ l2) c.
Proof.
  induction 1; intros H2; cbn; [exact H2|].
  econstructor; eauto.
Qed.

Lemma built_stage_blocks (t s oc : Z) (idx : list Z) :
  forall ic, Forall built (stage_blocks t s oc ic idx).
Proof.
  induction idx as [|i rest IH]; intros ic; cbn; constructor.
  - unfold built. eauto.
  - apply IH.
Qed.

Lemma strides_later (t s oc : Z) (idx : list Z) :
  Forall (fun i => i <> 0) idx ->
  forall ic,
    map InvertedResidual.stride (stage_blocks t s oc ic idx) =
      map Some (repeat 1 (length idx)).
Proof.
  induction 1 as [|i rest Hi _ IH]; intros ic; cbn; [reflexivity|].
  rewrite stride_init, IH.
  apply Z.eqb_neq in Hi. rewrite Hi. reflexivity.
Qed.

Lemma strides_stage_blocks (t s oc ic n : Z) :
  map InvertedResidual.stride (stage_blocks t s oc ic (range n)) =
    map Some (stage_strides n s).
Proof.
  unfold range, stage_strides.
  destruct (Z.to_nat n) as [|k]; [reflexivity|].
  cbn [seq map stage_blocks]. rewrite stride_init. cbn [Z.of_nat Z.eqb].
  f_equal. rewrite strides_later.
  - rewrite length_map, length_seq. reflexivity.
  - apply Forall_forall. intros i Hi.
    apply in_map_iff in Hi. destruct Hi as (j & <- & Hj).
    apply in_seq in Hj. lia.
Qed.

Lemma length_stage_blocks (t s oc ic : Z) (idx : list Z) :
  length (stage_blocks t s oc ic idx) = length idx.
Proof.
  revert ic. induction idx as [|i rest IH]; intros ic; cbn; [|rewrite IH]; reflexivity.
Qed.

(** The two loops of lines 94-99 return for every non-zero granularity,
    and append a chain of blocks with the strides of the table. *)
Lemma stages_spec (alpha : Q) (round_nearest : Z) (setting : list (Z * Z * Z * Z)) :
  round_nearest <> 0 ->
  forall (fs : list Feature) (ic : Z),
  exists bs ic',
    stages alpha round_nearest setting (fs, ic) = OK (fs ++ map Block bs, ic') /\
    chain ic bs ic' /\
    map InvertedResidual.stride bs = map Some (setting_strides setting) /\
    Forall built bs.
Proof.
  intros Hrn. induction setting as [|[[[t c] n] s] rest IH]; intros fs ic.
  - exists [], ic. cbn. rewrite app_nil_r. repeat split; constructor.
  - cbn [stages stage_body].
    destruct (_make_divisible_returns (inject_Z c * alpha) round_nearest None Hrn)
      as [oc Hoc].
    rewrite Hoc. cbn [bind]. rewrite fold_block_body.
    destruct (IH (fs ++ map Block (stage_blocks t s oc ic (range n)))
                 (channel_after oc ic (range n)))
      as (bs & ic' & Hst & Hch & Hs & Hb).
    exists (stage_blocks t s oc ic (range n) ++ bs), ic'.
    rewrite Hst. repeat split.
    + rewrite map_app, app_assoc. reflexivity.
    + eapply chain_app; [apply chain_stage_blocks|exact Hch].
    + unfold setting_strides in *. cbn [flat_map].
      rewrite !map_app, Hs, strides_stage_blocks. reflexivity.
    + apply Forall_app. split; [apply built_stage_blocks|exact Hb].
Qed.

Lemma assemble_spec (num_classes : Z) (alpha : Q) (round_nearest : Z) :
  round_nearest <> 0 ->
  exists input_channel last_channel bs ic',
    _make_divisible (inject_Z 32 * alpha) round_nearest None = OK input_channel /\
    _make_divisible (inject_Z 1280 * alpha) round_nearest None = OK last_channel /\
    assemble num_classes alpha round_nearest =
      OK (mk (Unit (ConvBNReLU.init 3 input_channel 3 2 1)
                :: map Block bs ++ [Unit (ConvBNReLU.init ic' last_channel 1 1 1)])
             (AdaptiveAvgPool2d_ 1 1)
             [Dropout_ (2 # 10); Linear_ (Linear.init last_channel num_classes)]) /\
    chain input_channel bs ic' /\
    map InvertedResidual.stride bs = map Some (setting_strides inverted_residual_setting) /\
    Forall built bs.
Proof.
  intros Hrn. unfold assemble.
  destruct (_make_divisible_returns (inject_Z 32 * alpha) round_nearest None Hrn)
    as [ic Hic].
  destruct (_make_divisible_returns (inject_Z 1280 * alpha) round_nearest None Hrn)
    as [lc Hlc].
  destruct (stages_spec alpha round_nearest inverted_residual_setting Hrn
              [Unit (ConvBNReLU.init 3 ic 3 2 1)] ic)
    as (bs & ic' & Hst & Hch & Hs & Hb).
  exists ic, lc, bs, ic'.
  rewrite Hic, Hlc. cbn [bind]. rewrite Hst. cbn [bind].
  repeat split; assumption.
Qed.

Lemma init_raises (num_classes : Z) (alpha : Q) :
  init num_classes alpha 0 = Raise ZeroDivisionError.
Proof. reflexivity. Qed.

End Assembly.

(** ** The initialisation pass *)

Section Initialisation.

Import MobileNetV2.

Lemma block_modules_map (f : Layer -> Layer) (b : InvertedResidual.t) :
  InvertedResidual.modules (InvertedResidual.map_modules f b) =
    map f (InvertedResidual.modules b).
Proof.
  unfold InvertedResidual.modules, InvertedResidual.map_modules.
  cbn [InvertedResidual.conv].
  induction (InvertedResidual.conv b) as [|s rest IH]; [reflexivity|].
  cbn [map flat_map]. rewrite IH, map_app. f_equal.
  destruct s; reflexivity.
Qed.

Lemma feature_modules_map (f : Layer -> Layer) (x : Feature) :
  feature_modules (map_feature f x) = map f (feature_modules x).
Proof.
  destruct x as [u|b]; cbn; [reflexivity|apply block_modules_map].
Qed.

(** The pass applies the loop body once to each module that
    [self.modules()] yields, at its place. *)
Lemma modules_for_modules (f : Layer -> Layer) (net : t) :
  modules (for_modules f net) = map f (modules net).
Proof.
  unfold modules, for_modules. cbn [features avgpool classifier].
  rewrite !map_app. f_equal.
  induction (features net) as [|x rest IH]; [reflexivity|].
  cbn [map flat_map]. rewrite IH, map_app, feature_modules_map. reflexivity.
Qed.

Lemma modules_blocks (bs : list InvertedResidual.t) :
  flat_map feature_modules (map Block bs) = flat_map InvertedResidual.modules bs.
Proof.
  induction bs as [|b rest IH]; cbn; [|rewrite IH]; reflexivity.
Qed.

Lemma modules_mk (stem head : ConvBNReLU.t) (bs : list InvertedResidual.t)
      (pool : Layer) (cls : list Layer) :
  modules (mk (Unit stem :: map Block bs ++ [Unit head]) pool cls) =
    (ConvBNReLU.modules stem ++ flat_map InvertedResidual.modules bs
       ++ ConvBNReLU.modules head)
    ++ pool :: cls.
Proof.
  unfold modules. cbn [features avgpool classifier flat_map feature_modules].
  rewrite flat_map_app, modules_blocks. cbn [flat_map feature_modules].
  rewrite app_nil_r, <- !app_assoc. reflexivity.
Qed.



Lemma chain_initialised (a c : Z) (bs : list InvertedResidual.t) :
  Forall built bs ->
  chain a bs c ->
  chain a (map (InvertedResidual.map_modules init_module) bs) c.
Proof.
  intros Hb Hc. induction Hc as [a|a b c blk bs Hin Hout Hc IH]; cbn.
  - constructor.
  - inversion Hb as [|? ? (i & o & s & e & ->) Hb']; subst.
    rewrite in_channels_init in Hin. rewrite out_channels_init in Hout.
    inversion Hin; inversion Hout; subst.
    econstructor.
    + apply in_channels_initialised.
    + apply out_channels_initialised.
    + apply IH. exact Hb'.
Qed.

Lemma strides_initialised (bs : list InvertedResidual.t) :
  Forall built bs ->
  map InvertedResidual.stride (map (InvertedResidual.map_modules init_module) bs) =
    map InvertedResidual.stride bs.
Proof.
  induction 1 as [|b rest (i & o & s & e & ->) _ IH]; cbn; [reflexivity|].
  rewrite IH, stride_initialised, stride_init. reflexivity.
Qed.

(** In a chain, the first block accepts the channels fed to the chain and
    each later block accepts what the block before it produces. *)
Lemma chain_adjacent (a c : Z) (bs : list InvertedResidual.t) :
  chain a bs c ->
  (forall b, nth_error bs 0 = Some b -> InvertedResidual.in_channels b = Some a) /\
  (forall i b b',
      nth_error bs i = Some b ->
      nth_error bs (S i) = Some b' ->
      exists ch,
        InvertedResidual.out_channels b = Some ch /\
        InvertedResidual.in_channels b' = Some ch).
Proof.
  induction 1 as [a|a b c blk bs Hin Hout Hc [IH0 IH]].
  - split; [intros b0 H0|intros i b1 b2 H1 H2]; [|destruct i]; discriminate.
  - split.
    + intros b0 H0. cbn in H0. inversion H0; subst. exact Hin.
    + intros [|i] b1 b2 H1 H2; cbn in H1, H2.
      * inversion H1; subst. exists b. split; [exact Hout|]. apply IH0. exact H2.
      * eapply IH; eassumption.
Qed.

(** In a chain that is not empty the last block produces the channels the
    chain ends with. *)
Lemma chain_last (a c : Z) (bs : list InvertedResidual.t) :
  chain a bs c ->
  forall b, hd_error (rev bs) = Some b -> InvertedResidual.out_channels b = Some c.
Proof.
  induction 1 as [a|a b c blk bs Hin Hout Hc IH]; intros b0 H0; [discriminate|].
  cbn in H0. destruct bs as [|b1 rest].
  - cbn in H0. inversion H0; subst. inversion Hc; subst. exact Hout.
  - apply IH. destruct (rev (b1 :: rest)) eqn:E.
    + apply (f_equal (@length _)) in E. rewrite length_rev in E. discriminate.
    + cbn in H0. exact H0.
Qed.

(** With exact widths and layers that pass the library's checks, the
    construction returns for every non-zero granularity; the shape of what
    it returns. *)
Lemma init_spec (num_classes : Z) (alpha : Q) (round_nearest : Z) :
  round_nearest <> 0 ->
  exists net0 input_channel last_channel bs0 ic',
    _make_divisible (inject_Z 32 * alpha) round_nearest None = OK input_channel /\
    _make_divisible (inject_Z 1280 * alpha) round_nearest None = OK last_channel /\
    assemble num_classes alpha round_nearest = OK net0 /\
    net0 = mk (Unit (ConvBNReLU.init 3 input_channel 3 2 1)
                 :: map Block bs0 ++ [Unit (ConvBNReLU.init ic' last_channel 1 1 1)])
              (AdaptiveAvgPool2d_ 1 1)
              [Dropout_ (2 # 10); Linear_ (Linear.init last_channel num_classes)] /\
    init num_classes alpha round_nearest = OK (for_modules init_module net0) /\
    features (for_modules init_module net0) =
      Unit (ConvBNReLU.map_modules init_module (ConvBNReLU.init 3 input_channel 3 2 1))
        :: map Block (map (InvertedResidual.map_modules init_module) bs0)
        ++ [Unit (ConvBNReLU.map_modules init_module
                    (ConvBNReLU.init ic' last_channel 1 1 1))] /\
    chain input_channel bs0 ic' /\
    map InvertedResidual.stride bs0 = map Some (setting_strides inverted_residual_setting) /\
    Forall built bs0.
Proof.
  intros Hrn.
  destruct (assemble_spec num_classes alpha round_nearest Hrn)
    as (ic & lc & bs & ic' & Hic & Hlc & Ha & Hch & Hs & Hb).
  eexists _, ic, lc, bs, ic'. repeat split; try eassumption.
  - unfold init. rewrite Ha. reflexivity.
  - cbn [for_modules features map map_feature].
    rewrite map_app, map_map. cbn [map map_feature]. rewrite <- map_map. reflexivity.
Qed.

End Initialisation.

(** ** The assembled network *)

Lemma blocks_features (stem head : ConvBNReLU.t) (bs : list InvertedResidual.t) :
  MobileNetV2.blocks
    (MobileNetV2.Unit stem :: map MobileNetV2.Block bs ++ [MobileNetV2.Unit head]) = bs.
Proof.
  unfold MobileNetV2.blocks. cbn [flat_map app].
  rewrite flat_map_app. cbn [flat_map]. rewrite !app_nil_r.
  induction bs as [|b rest IH]; cbn; [|rewrite IH]; reflexivity.
Qed.

(** C4. For every [num_classes], [alpha] and [round_nearest], in every
    network the constructor returns the feature sequence is the stem, the
    inverted-residual blocks and the head; the first block accepts the
    channels the stem produces, every later block accepts the channels the
    block before it produces, and the strides of the blocks are, stage after
    stage of the table, the stage's stride [s] for block 0 followed by
    stride 1 for the remaining [n - 1] blocks. *)
Theorem C4_channel_propagation (num_classes : Z) (alpha : Q) (round_nearest : Z) :
  forall net,
    MobileNetV2.init num_classes alpha round_nearest = OK net ->
    exists stem head c0,
      let bs := MobileNetV2.blocks (MobileNetV2.features net) in
      MobileNetV2.features net =
        MobileNetV2.Unit stem :: map MobileNetV2.Block bs ++ [MobileNetV2.Unit head] /\
      stem_channels net = Some c0 /\
      (forall b, nth_error bs 0 = Some b -> InvertedResidual.in_channels b = Some c0) /\
      (forall i b b',
          nth_error bs i = Some b ->
          nth_error bs (S i) = Some b' ->
          exists ch,
            InvertedResidual.out_channels b = Some ch /\
            InvertedResidual.in_channels b' = Some ch) /\
      map InvertedResidual.stride bs =
        map Some (setting_strides MobileNetV2.inverted_residual_setting).
Proof.
  intros net Hnet.
  destruct (Z.eq_dec round_nearest 0) as [->|Hrn].
  { rewrite init_raises in Hnet. discriminate. }
  destruct (init_spec num_classes alpha round_nearest Hrn)
    as (net0 & ic & lc & bs0 & ic' & _ & _ & _ & _ & Hi & Hf & Hch & Hs & Hb).
  rewrite Hi in Hnet. inversion Hnet; subst net; clear Hnet.
  eexists _, _, ic. cbn zeta. unfold stem_channels.
  rewrite Hf, blocks_features.
  destruct (chain_adjacent _ _ _ (chain_initialised _ _ _ Hb Hch)) as [H0 Hadj].
  repeat split.
  - exact H0.
  - exact Hadj.
  - rewrite (strides_initialised _ Hb). exact Hs.
Qed.

Lemma C4_channel_propagation_witness :
  exists net,
    MobileNetV2.init 1000 1 8 = OK net /\
    exists stem head c0,
      let bs := MobileNetV2.blocks (MobileNetV2.features net) in
      MobileNetV2.features net =
        MobileNetV2.Unit stem :: map MobileNetV2.Block bs ++ [MobileNetV2.Unit head] /\
      stem_channels net = Some c0 /\
      (forall b, nth_error bs 0 = Some b -> InvertedResidual.in_channels b = Some c0) /\
      (forall i b b',
          nth_error bs i = Some b ->
          nth_error bs (S i) = Some b' ->
          exists ch,
            InvertedResidual.out_channels b = Some ch /\
            InvertedResidual.in_channels b' = Some ch) /\
      map InvertedResidual.stride bs =
        map Some (setting_strides MobileNetV2.inverted_residual_setting).
Proof.
  eexists. split; [vm_compute; reflexivity|].
  apply (C4_channel_propagation 1000 1 8). vm_compute; reflexivity.
Defined.









(** ** More on the rounding rule *)

Section MakeDivisibleMore.

Lemma inject_half (d : Z) : (inject_Z d / 2 == inject_Z d * (1 # 2))%Q.
Proof. reflexivity. Qed.

Lemma inject_pos (d : Z) : 0 < d -> (0 < inject_Z d)%Q.
Proof. intros Hd. unfold Qlt; simpl; lia. Qed.

Lemma int_opp (x : Q) : int (- x) = - int x.
Proof.
  destruct x as [n d]. unfold int. simpl. apply Z.quot_opp_l. lia.
Qed.

Lemma int_nonpos (x : Q) : (x <= 0)%Q -> int x <= 0.
Proof.
  intros Hx.
  assert (H : (0 <= - x)%Q) by lra.
  pose proof (int_floor _ H) as Hf. rewrite int_opp in Hf.
  assert (H0 : Qfloor 0 <= Qfloor (- x)) by (apply Qfloor_resp_le; exact H).
  change (Qfloor 0) with 0 in H0. lia.
Qed.

(** Truncation toward zero is monotone. *)
Lemma int_mono (x y : Q) : (x <= y)%Q -> int x <= int y.
Proof.
  intros Hxy.
  destruct (Qlt_le_dec x 0) as [Hx|Hx]; destruct (Qlt_le_dec y 0) as [Hy|Hy].
  - assert (Hnx : (0 <= - x)%Q) by lra. assert (Hny : (0 <= - y)%Q) by lra.
    pose proof (int_floor _ Hnx) as Hfx. pose proof (int_floor _ Hny) as Hfy.
    rewrite int_opp in Hfx, Hfy.
    assert (H : Qfloor (- y) <= Qfloor (- x)) by (apply Qfloor_resp_le; lra).
    lia.
  - assert (H1 : int x <= 0) by (apply int_nonpos; lra).
    rewrite (int_floor _ Hy).
    assert (H0 : Qfloor 0 <= Qfloor y) by (apply Qfloor_resp_le; exact Hy).
    change (Qfloor 0) with 0 in H0. lia.
  - lra.
  - rewrite (int_floor _ Hx), (int_floor y) by lra. apply Qfloor_resp_le. exact Hxy.
Qed.

(** The truncation is within one of the number, from below. *)
Lemma int_above (x : Q) : (x < inject_Z (int x + 1))%Q.
Proof.
  destruct (Qlt_le_dec x 0) as [Hx|Hx].
  - assert (H1 : (0 <= - x)%Q) by lra.
    pose proof (int_floor _ H1) as Hf. rewrite int_opp in Hf.
    pose proof (Qfloor_le (- x)) as Hle. rewrite <- Hf in Hle.
    rewrite inject_Z_plus. rewrite inject_Z_opp in Hle.
    assert (H2 : (inject_Z 1 == 1)%Q) by reflexivity. lra.
  - rewrite (int_floor _ Hx). apply Qlt_floor.
Qed.

(** On a non-negative number the truncation does not exceed the number. *)
Lemma int_below (x : Q) : (0 <= x)%Q -> (inject_Z (int x) <= x)%Q.
Proof.
  intros Hx. rewrite (int_floor _ Hx). apply Qfloor_le.
Qed.

(** The truncation of a number below a positive integer is below it. *)
Lemma int_lt (x : Q) (z : Z) : 0 < z -> (x < inject_Z z)%Q -> int x < z.
Proof.
  intros Hz Hx.
  destruct (Qlt_le_dec x 0) as [Hn|Hp].
  - assert (H : int x <= 0) by (apply int_nonpos; lra). lia.
  - pose proof (int_below _ Hp) as Hb.
    rewrite Zlt_Qlt. lra.
Qed.

Lemma multiple_bounds (i d : Z) :
  0 < d -> i / d * d <= i /\ i + 1 <= i / d * d + d.
Proof.
  intros Hd.
  pose proof (Z.mod_pos_bound i d Hd).
  pose proof (Z.div_mod i d ltac:(lia)).
  split; lia.
Qed.

End MakeDivisibleMore.

(** X2. For every non-zero divisor, positive or negative, and every [ch],
    negative ones included, the value returned is a multiple of [divisor]
    when [min_ch] is left unset or is itself a multiple of [divisor]. *)
Theorem X2_make_divisible_divisible (ch : Q) (divisor : Z) (min_ch : option Z) :
  divisor <> 0 ->
  match min_ch with
  | None => True
  | Some m => (divisor | m)
  end ->
  exists v, _make_divisible ch divisor min_ch = OK v /\ (divisor | v).
Proof.
  intros Hd Hm.
  rewrite (_make_divisible_eq ch divisor min_ch Hd).
  set (m := match min_ch with None => divisor | Some m => m end).
  assert (Hdm : (divisor | m)).
  { subst m. destruct min_ch; [exact Hm|apply Z.divide_refl]. }
  set (q := int (ch + inject_Z divisor / 2) / divisor).
  assert (Hc : (divisor | Z.max m (q * divisor))).
  { apply Z.max_case; [exact Hdm|apply Z.divide_factor_r]. }
  eexists. split; [reflexivity|].
  destruct (lt _ _); [|exact Hc].
  apply Z.divide_add_r; [exact Hc|apply Z.divide_refl].
Qed.

Lemma X2_make_divisible_divisible_witness :
  -8 <> 0 /\ (-8 | 16) /\
  exists v, _make_divisible (- (37 # 2)) (-8) (Some 16) = OK v /\ (-8 | v).
Proof.
  split; [lia|]. split; [exists (-2); reflexivity|].
  apply (X2_make_divisible_divisible (- (37 # 2))%Q (-8) (Some 16)).
  - lia.
  - exists (-2); reflexivity.
Defined.

(** X3. For a positive divisor the value returned is never below the
    minimum ([min_ch], or [divisor] when [min_ch] is unset), whatever [ch]
    is. *)
Theorem X3_make_divisible_floor (ch : Q) (divisor : Z) (min_ch : option Z) :
  0 < divisor ->
  exists v,
    _make_divisible ch divisor min_ch = OK v /\
    match min_ch with None => divisor | Some m => m end <= v.
Proof.
  intros Hd.
  rewrite (_make_divisible_eq ch divisor min_ch) by lia.
  eexists. split; [reflexivity|].
  destruct (lt _ _); lia.
Qed.

Lemma X3_make_divisible_floor_witness :
  0 < 8 /\
  exists v, _make_divisible (- (1000 # 1)) 8 None = OK v /\ 8 <= v.
Proof.
  split; [lia|].
  apply (X3_make_divisible_floor (- (1000 # 1))%Q 8 None). lia.
Defined.

(** X4. With [min_ch] unset and a positive divisor, every [ch] up to the
    divisor, zero and negative numbers included, is rounded to the divisor
    itself. *)
Theorem X4_make_divisible_small (ch : Q) (divisor : Z) :
  0 < divisor ->
  (ch <= inject_Z divisor)%Q ->
  _make_divisible ch divisor None = OK divisor.
Proof.
  intros Hd Hch.
  rewrite (_make_divisible_eq ch divisor None) by lia.
  pose proof (inject_pos divisor Hd) as Hp.
  pose proof (inject_half divisor) as Hh.
  assert (Hi : int (ch + inject_Z divisor / 2) < 2 * divisor).
  { apply int_lt; [lia|].
    rewrite inject_Z_mult. change (inject_Z 2) with 2%Q. lra. }
  assert (Hq : int (ch + inject_Z divisor / 2) / divisor < 2)
    by (apply Z.div_lt_upper_bound; lia).
  set (q := int (ch + inject_Z divisor / 2) / divisor) in *.
  assert (Hqd : q * divisor <= 1 * divisor) by (apply Z.mul_le_mono_nonneg_r; lia).
  assert (Hc : Z.max divisor (q * divisor) = divisor) by lia.
  rewrite Hc.
  assert (Hg : lt (inject_Z divisor) ((9 # 10) * ch) = false).
  { apply lt_false. lra. }
  rewrite Hg. reflexivity.
Qed.

Lemma X4_make_divisible_small_witness :
  0 < 8 /\ (- (3 # 1) <= inject_Z 8)%Q /\ _make_divisible (- (3 # 1)) 8 None = OK 8.
Proof.
  split; [lia|]. split; [unfold Qle; simpl; lia|].
  apply (X4_make_divisible_small (- (3 # 1))%Q 8).
  - lia.
  - unfold Qle; simpl; lia.
Defined.

Lemma int_inject (a : Z) : int (inject_Z a) = a.
Proof. unfold int. simpl. apply Z.quot_1_r. Qed.

(** X6. With [min_ch] unset and a positive divisor the rounding is
    monotone: a larger [ch] never gets a smaller value, over all rationals,
    negative ones included, and across the points where the 10% guard
    switches on or off. *)
Theorem X6_make_divisible_monotone (ch1 ch2 : Q) (divisor : Z) :
  0 < divisor ->
  (ch1 <= ch2)%Q ->
  exists v1 v2,
    _make_divisible ch1 divisor None = OK v1 /\
    _make_divisible ch2 divisor None = OK v2 /\
    v1 <= v2.
Proof.
  intros Hd Hle.
  rewrite (_make_divisible_eq ch1 divisor None), (_make_divisible_eq ch2 divisor None)
    by lia.
  assert (Hi : int (ch1 + inject_Z divisor / 2) <= int (ch2 + inject_Z divisor / 2))
    by (apply int_mono; lra).
  apply (Z.div_le_mono _ _ divisor Hd) in Hi.
  set (k1 := int (ch1 + inject_Z divisor / 2) / divisor) in *.
  set (k2 := int (ch2 + inject_Z divisor / 2) / divisor) in *.
  assert (E1 : Z.max divisor (k1 * divisor) = Z.max 1 k1 * divisor) by nia.
  assert (E2 : Z.max divisor (k2 * divisor) = Z.max 1 k2 * divisor) by nia.
  rewrite E1, E2.
  assert (Hm : Z.max 1 k1 <= Z.max 1 k2) by lia.
  eexists _, _. split; [reflexivity|]. split; [reflexivity|].
  destruct (lt (inject_Z (Z.max 1 k1 * divisor)) ((9 # 10) * ch1)) eqn:G1;
    destruct (lt (inject_Z (Z.max 1 k2 * divisor)) ((9 # 10) * ch2)) eqn:G2.
  - nia.
  - apply lt_spec in G1. apply lt_false in G2.
    assert (Hc : (inject_Z (Z.max 1 k1 * divisor) < inject_Z (Z.max 1 k2 * divisor))%Q)
      by lra.
    rewrite <- Zlt_Qlt in Hc.
    assert (Hs : Z.max 1 k1 < Z.max 1 k2) by nia.
    nia.
  - nia.
  - nia.
Qed.

Lemma X6_make_divisible_monotone_witness :
  0 < 8 /\ ((199 # 10) <= 20)%Q /\
  exists v1 v2,
    _make_divisible (199 # 10) 8 None = OK v1 /\
    _make_divisible 20 8 None = OK v2 /\
    v1 <= v2.
Proof.
  split; [lia|]. split; [unfold Qle; simpl; lia|].
  apply (X6_make_divisible_monotone (199 # 10)%Q 20%Q 8).
  - lia.
  - unfold Qle; simpl; lia.
Defined.

(** ** The blocks of the network in closed form *)

Section ClosedForm.

Import MobileNetV2.

Lemma width_ok (alpha : Q) (round_nearest c : Z) :
  round_nearest <> 0 ->
  _make_divisible (inject_Z c * alpha) round_nearest None = OK (width alpha round_nearest c).
Proof.
  intros Hrn. unfold width.
  destruct (_make_divisible_returns (inject_Z c * alpha) round_nearest None Hrn) as [v Hv].
  rewrite Hv. reflexivity.
Qed.

Lemma stages_blocks (alpha : Q) (round_nearest : Z) (setting : list (Z * Z * Z * Z)) :
  round_nearest <> 0 ->
  forall (fs : list Feature) (ic : Z),
    stages alpha round_nearest setting (fs, ic) =
      OK (fs ++ map Block (setting_blocks (width alpha round_nearest) ic setting),
          setting_channel (width alpha round_nearest) ic setting).
Proof.
  intros Hrn. induction setting as [|[[[t c] n] s] rest IH]; intros fs ic.
  - cbn. rewrite app_nil_r. reflexivity.
  - cbn [stages stage_body setting_blocks setting_channel].
    rewrite (width_ok alpha round_nearest c Hrn). cbn [bind].
    rewrite fold_block_body, IH, map_app, app_assoc. reflexivity.
Qed.

(** The network the constructor returns, written out. *)
Lemma init_blocks (num_classes : Z) (alpha : Q) (round_nearest : Z) :
  round_nearest <> 0 ->
  let w := width alpha round_nearest in
  init num_classes alpha round_nearest =
    OK (for_modules init_module
          (mk (Unit (ConvBNReLU.init 3 (w 32) 3 2 1)
                 :: map Block (setting_blocks w (w 32) inverted_residual_setting)
                 ++ [Unit (ConvBNReLU.init
                             (setting_channel w (w 32) inverted_residual_setting)
                             (w 1280) 1 1 1)])
              (AdaptiveAvgPool2d_ 1 1)
              [Dropout_ (2 # 10); Linear_ (Linear.init (w 1280) num_classes)])).
Proof.
  intros Hrn w. unfold init, assemble.
  rewrite (width_ok alpha round_nearest 32 Hrn), (width_ok alpha round_nearest 1280 Hrn).
  cbn [bind]. rewrite (stages_blocks alpha round_nearest _ Hrn). cbn [bind].
  reflexivity.
Qed.

Lemma blocks_for_modules (f : Layer -> Layer) (stem head : ConvBNReLU.t)
      (bs : list InvertedResidual.t) (pool : Layer) (cls : list Layer) :
  blocks (features (for_modules f (mk (Unit stem :: map Block bs ++ [Unit head]) pool cls))) =
    map (InvertedResidual.map_modules f) bs.
Proof.
  cbn [for_modules features map map_feature].
  rewrite map_app, map_map. cbn [map map_feature].
  rewrite <- (map_map (InvertedResidual.map_modules f) Block).
  apply blocks_features.
Qed.

(** The seventeen blocks of the stage table of the source. *)
Lemma default_blocks (w : Z -> Z) (ic : Z) :
  setting_blocks w ic inverted_residual_setting =
    [ InvertedResidual.init ic (w 16) 1 1;
      InvertedResidual.init (w 16) (w 24) 2 6;
      InvertedResidual.init (w 24) (w 24) 1 6;
      InvertedResidual.init (w 24) (w 32) 2 6;
      InvertedResidual.init (w 32) (w 32) 1 6;
      InvertedResidual.init (w 32) (w 32) 1 6;
      InvertedResidual.init (w 32) (w 64) 2 6;
      InvertedResidual.init (w 64) (w 64) 1 6;
      InvertedResidual.init (w 64) (w 64) 1 6;
      InvertedResidual.init (w 64) (w 64) 1 6;
      InvertedResidual.init (w 64) (w 96) 1 6;
      InvertedResidual.init (w 96) (w 96) 1 6;
      InvertedResidual.init (w 96) (w 96) 1 6;
      InvertedResidual.init (w 96) (w 160) 2 6;
      InvertedResidual.init (w 160) (w 160) 1 6;
      InvertedResidual.init (w 160) (w 160) 1 6;
      InvertedResidual.init (w 160) (w 320) 1 6 ]
  /\ setting_channel w ic inverted_residual_setting = w 320.
Proof. split; reflexivity. Qed.

Lemma width_aligned (alpha : Q) (round_nearest c : Z) :
  0 < round_nearest -> aligned round_nearest (width alpha round_nearest c).
Proof.
  intros Hrn. unfold width.
  rewrite (_make_divisible_eq _ round_nearest None) by lia.
  set (q := int _ / round_nearest).
  assert (E : Z.max round_nearest (q * round_nearest) = round_nearest * Z.max 1 q) by nia.
  rewrite E.
  destruct (lt _ _).
  - exists (Z.max 1 q + 1). split; lia.
  - exists (Z.max 1 q). split; lia.
Qed.

Lemma width_degenerate (alpha : Q) (round_nearest c : Z) :
  0 < round_nearest -> 0 <= c -> (alpha <= 0)%Q ->
  width alpha round_nearest c = round_nearest.
Proof.
  intros Hrn Hc Ha. unfold width.
  assert (H : _make_divisible (inject_Z c * alpha) round_nearest None = OK round_nearest).
  { rewrite (_make_divisible_eq _ round_nearest None) by lia.
    pose proof (inject_pos round_nearest Hrn) as Hp.
    pose proof (inject_half round_nearest) as Hh.
    assert (Hc0 : (0 <= inject_Z c)%Q) by (unfold Qle; simpl; lia).
    assert (Hneg : (inject_Z c * alpha <= 0)%Q).
    { assert (Hm : (0 <= inject_Z c * - alpha)%Q)
        by (apply Qmult_le_0_compat; [exact Hc0|lra]).
      assert (Hr : (inject_Z c * - alpha == - (inject_Z c * alpha))%Q) by ring.
      lra. }
    assert (Hi : int (inject_Z c * alpha + inject_Z round_nearest / 2) < 2 * round_nearest).
    { apply int_lt; [lia|].
      rewrite inject_Z_mult. change (inject_Z 2) with 2%Q. lra. }
    assert (Hq : int (inject_Z c * alpha + inject_Z round_nearest / 2) / round_nearest < 2)
      by (apply Z.div_lt_upper_bound; lia).
    set (q := int _ / round_nearest) in *.
    assert (Hqd : q * round_nearest <= 1 * round_nearest)
      by (apply Z.mul_le_mono_nonneg_r; lia).
    replace (Z.max round_nearest (q * round_nearest)) with round_nearest by lia.
    assert (Hg : lt (inject_Z round_nearest) ((9 # 10) * (inject_Z c * alpha)) = false).
    { apply lt_false. lra. }
    rewrite Hg. reflexivity. }
  rewrite H. reflexivity.
Qed.

End ClosedForm.

(** ** Invariants of every network the constructor returns *)

Lemma OK_inj (A : Type) (a b : A) : OK a = OK b -> a = b.
Proof. intros H. congruence. Qed.

Section NetworkInvariants.

Import MobileNetV2.

(** A property of blocks holds of all seventeen blocks when it holds of
    every block built between widths of the table with expansion 1 or 6. *)
Lemma default_blocks_Forall (P : InvertedResidual.t -> Prop) (w : Z -> Z) (ic : Z) :
  (forall i o s t,
      In i (ic :: map w [16; 24; 32; 64; 96; 160]) ->
      In o (map w [16; 24; 32; 64; 96; 160; 320]) ->
      In t [1; 6] ->
      P (InvertedResidual.init i o s t)) ->
  Forall P (setting_blocks w ic inverted_residual_setting).
Proof.
  intros H. rewrite (proj1 (default_blocks w ic)).
  repeat (constructor; [apply H; cbn; tauto|]). constructor.
Qed.

Lemma Forall_map_modules (P : Layer -> Prop) (f : Layer -> Layer) (ms : list Layer) :
  (forall m, P m -> P (f m)) -> Forall P ms -> Forall P (map f ms).
Proof.
  intros Hf H. induction H; cbn; constructor; auto.
Qed.

Lemma Forall_flat_modules (P : Layer -> Prop) (bs : list InvertedResidual.t) :
  Forall (fun b => Forall P (InvertedResidual.modules b)) bs ->
  Forall P (flat_map InvertedResidual.modules bs).
Proof.
  induction 1; cbn; [constructor|]. apply Forall_app. split; assumption.
Qed.

(** A property of modules that the initialisation keeps, that holds of the
    stem, of the head, of the modules of every block and of the three
    modules after the feature extractor, holds of every module of the
    network. *)
Lemma modules_Forall (P : Layer -> Prop) (num_classes : Z) (alpha : Q)
      (round_nearest : Z) (net : t) :
  round_nearest <> 0 ->
  init num_classes alpha round_nearest = OK net ->
  let w := width alpha round_nearest in
  (forall m, P m -> P (init_module m)) ->
  Forall P (ConvBNReLU.modules (ConvBNReLU.init 3 (w 32) 3 2 1)) ->
  Forall P (ConvBNReLU.modules (ConvBNReLU.init (w 320) (w 1280) 1 1 1)) ->
  Forall (fun b => Forall P (InvertedResidual.modules b))
         (setting_blocks w (w 32) inverted_residual_setting) ->
  P (AdaptiveAvgPool2d_ 1 1) ->
  P (Dropout_ (2 # 10)) ->
  P (Linear_ (Linear.init (w 1280) num_classes)) ->
  Forall P (modules net).
Proof.
  intros Hrn Hnet w Hf Hstem Hhead Hbs Hpool Hdrop Hlin.
  rewrite (init_blocks num_classes alpha round_nearest Hrn) in Hnet.
  apply OK_inj in Hnet. subst net. fold w.
  rewrite modules_for_modules, modules_mk.
  apply Forall_map_modules; [exact Hf|].
  rewrite (proj2 (default_blocks w (w 32))).
  apply Forall_app. split.
  - apply Forall_app. split; [exact Hstem|].
    apply Forall_app. split; [apply Forall_flat_modules; exact Hbs|exact Hhead].
  - repeat constructor; assumption.
Qed.

Lemma aligned_mul (d i t : Z) : aligned d i -> 1 <= t -> aligned d (i * t).
Proof.
  intros (k & Hk & ->) Ht. exists (k * t). split; nia.
Qed.

Lemma aligned_block (d i o s t : Z) :
  aligned d i -> aligned d o -> 1 <= t ->
  Forall (conv_aligned d) (InvertedResidual.modules (InvertedResidual.init i o s t)).
Proof.
  intros Hi Ho Ht. pose proof (aligned_mul d i t Hi Ht) as Hh.
  unfold InvertedResidual.modules. rewrite conv_init.
  destruct (t =? 1); cbn;
    repeat (constructor; [cbn; auto|]); constructor.
Qed.

Lemma shaped_block (i o s t : Z) :
  Forall conv_shaped (InvertedResidual.modules (InvertedResidual.init i o s t)).
Proof.
  unfold InvertedResidual.modules. rewrite conv_init.
  destruct (t =? 1); cbn; repeat constructor; cbn;
    solve [left; repeat split | right; left; repeat split].
Qed.

Lemma in_widths_aligned (alpha : Q) (round_nearest x : Z) (cs : list Z) :
  0 < round_nearest ->
  In x (map (width alpha round_nearest) cs) -> aligned round_nearest x.
Proof.
  intros Hrn Hin. apply in_map_iff in Hin. destruct Hin as (c & <- & _).
  apply width_aligned. exact Hrn.
Qed.

End NetworkInvariants.

(** X8. For a positive granularity, whatever [alpha] and [num_classes] are,
    every convolution of the network the constructor returns produces a
    positive multiple of [round_nearest] channels and accepts a positive
    multiple of [round_nearest] channels; the one exception is the input of
    the first convolution, which reads the 3 channels of the image. *)
Theorem X8_channels_aligned
        (num_classes : Z) (alpha : Q) (round_nearest : Z) (net : MobileNetV2.t) :
  0 < round_nearest ->
  MobileNetV2.init num_classes alpha round_nearest = OK net ->
  forall c,
    In (Conv2d_ c) (MobileNetV2.modules net) ->
    aligned round_nearest (Conv2d.out_channels c) /\
    (aligned round_nearest (Conv2d.in_channels c) \/ image_conv c).
Proof.
  intros Hrn Hnet c Hin.
  assert (H : Forall (conv_aligned round_nearest) (MobileNetV2.modules net)).
  { apply (modules_Forall _ num_classes alpha round_nearest net); try exact Hnet; try lia.
    - intros [c0| | | | |]; cbn; auto.
    - constructor; [|repeat (constructor; [exact I|]); constructor].
      split; [apply width_aligned; exact Hrn|right; repeat split].
    - constructor; [|repeat (constructor; [exact I|]); constructor].
      split; [|left]; apply width_aligned; exact Hrn.
    - apply default_blocks_Forall. intros i o s t Hi Ho Ht.
      apply aligned_block.
      + destruct Hi as [<-|Hi];
          [apply width_aligned; exact Hrn|eapply in_widths_aligned; eassumption].
      + eapply in_widths_aligned; eassumption.
      + cbn in Ht. lia.
    - exact I.
    - exact I.
    - exact I. }
  rewrite Forall_forall in H. exact (H _ Hin).
Qed.

Lemma X8_channels_aligned_witness :
  exists net,
    0 < 8 /\
    MobileNetV2.init 10 (3 # 4) 8 = OK net /\
    forall c,
      In (Conv2d_ c) (MobileNetV2.modules net) ->
      aligned 8 (Conv2d.out_channels c) /\
      (aligned 8 (Conv2d.in_channels c) \/ image_conv c).
Proof.
  eexists. split; [lia|]. split; [vm_compute; reflexivity|].
  apply (X8_channels_aligned 10 (3 # 4)%Q 8); [lia|vm_compute; reflexivity].
Defined.

Section BlockLists.

Import MobileNetV2.

Lemma in_channels_pass (b : InvertedResidual.t) :
  built b ->
  InvertedResidual.in_channels (InvertedResidual.map_modules init_module b) =
    InvertedResidual.in_channels b.
Proof.
  intros (i & o & s & t & ->). rewrite in_channels_initialised, in_channels_init.
  reflexivity.
Qed.

Lemma out_channels_pass (b : InvertedResidual.t) :
  built b ->
  InvertedResidual.out_channels (InvertedResidual.map_modules init_module b) =
    InvertedResidual.out_channels b.
Proof.
  intros (i & o & s & t & ->). rewrite out_channels_initialised, out_channels_init.
  reflexivity.
Qed.

Lemma stride_pass (b : InvertedResidual.t) :
  built b ->
  InvertedResidual.stride (InvertedResidual.map_modules init_module b) =
    InvertedResidual.stride b.
Proof.
  intros (i & o & s & t & ->). rewrite stride_initialised, stride_init.
  reflexivity.
Qed.

Lemma built_default (w : Z -> Z) (ic : Z) :
  Forall built (setting_blocks w ic inverted_residual_setting).
Proof.
  apply default_blocks_Forall. intros i o s t _ _ _. unfold built. eauto.
Qed.

Lemma map_pass (A : Type) (f : InvertedResidual.t -> A) (bs : list InvertedResidual.t) :
  (forall b, built b -> f (InvertedResidual.map_modules init_module b) = f b) ->
  Forall built bs ->
  map f (map (InvertedResidual.map_modules init_module) bs) = map f bs.
Proof.
  intros Hf H. induction H as [|b rest Hb _ IH]; cbn; [reflexivity|].
  rewrite IH, (Hf b Hb). reflexivity.
Qed.

(** The blocks of the network the constructor returns. *)
Lemma blocks_init (num_classes : Z) (alpha : Q) (round_nearest : Z) (net : t) :
  round_nearest <> 0 ->
  init num_classes alpha round_nearest = OK net ->
  let w := width alpha round_nearest in
  stem_channels net = Some (w 32) /\
  blocks (features net) =
    map (InvertedResidual.map_modules init_module)
        (setting_blocks w (w 32) inverted_residual_setting).
Proof.
  intros Hrn Hnet w.
  rewrite (init_blocks num_classes alpha round_nearest Hrn) in Hnet.
  apply OK_inj in Hnet. subst net. fold w.
  split; [reflexivity|apply blocks_for_modules].
Qed.

End BlockLists.





(** X11. In every network the constructor returns, after the initialisation
    pass, a block adds the shortcut if and only if its depthwise convolution
    has stride 1 and its first convolution accepts as many channels as its
    last convolution produces: the addition [x + conv(x)] is only performed
    between tensors of the same shape. *)
Theorem X11_shortcut_sound
        (num_classes : Z) (alpha : Q) (round_nearest : Z) (net : MobileNetV2.t) :
  MobileNetV2.init num_classes alpha round_nearest = OK net ->
  forall b,
    In b (MobileNetV2.blocks (MobileNetV2.features net)) ->
    exists i o s,
      InvertedResidual.in_channels b = Some i /\
      InvertedResidual.out_channels b = Some o /\
      InvertedResidual.stride b = Some s /\
      (InvertedResidual.use_shortcut b = true <-> s = 1 /\ i = o).
Proof.
  intros Hnet b Hin.
  destruct (Z.eq_dec round_nearest 0) as [->|Hrn].
  { rewrite init_raises in Hnet. discriminate. }
  destruct (blocks_init num_classes alpha round_nearest net Hrn Hnet) as [_ Hbs].
  rewrite Hbs in Hin. apply in_map_iff in Hin. destruct Hin as (b0 & <- & Hin0).
  pose proof (built_default (width alpha round_nearest) (width alpha round_nearest 32))
    as Hb.
  rewrite Forall_forall in Hb. destruct (Hb _ Hin0) as (i & o & s & t & ->).
  exists i, o, s.
  rewrite in_channels_initialised, out_channels_initialised, stride_initialised.
  repeat split; cbn in *.
  - apply andb_true_iff in H. apply Z.eqb_eq. tauto.
  - apply andb_true_iff in H. apply Z.eqb_eq. tauto.
  - intros [-> ->]. cbn. apply Z.eqb_refl.
Qed.

Lemma X11_shortcut_sound_witness :
  exists net,
    MobileNetV2.init 1000 1 8 = OK net /\
    forall b,
      In b (MobileNetV2.blocks (MobileNetV2.features net)) ->
      exists i o s,
        InvertedResidual.in_channels b = Some i /\
        InvertedResidual.out_channels b = Some o /\
        InvertedResidual.stride b = Some s /\
        (InvertedResidual.use_shortcut b = true <-> s = 1 /\ i = o).
Proof.
  eexists. split; [vm_compute; reflexivity|].
  apply (X11_shortcut_sound 1000 1 8). vm_compute; reflexivity.
Defined.

Section Topology.

Import MobileNetV2.

Lemma kind_init_module (m : Layer) : kind (init_module m) = kind m.
Proof. destruct m; reflexivity. Qed.

(** The classes of the modules of the network do not depend on the
    widths. *)
Lemma kinds_network (w w' : Z -> Z) (nc nc' : Z) :
  let net (w : Z -> Z) (nc : Z) :=
    for_modules init_module
      (mk (Unit (ConvBNReLU.init 3 (w 32) 3 2 1)
             :: map Block (setting_blocks w (w 32) inverted_residual_setting)
             ++ [Unit (ConvBNReLU.init
                         (setting_channel w (w 32) inverted_residual_setting)
                         (w 1280) 1 1 1)])
          (AdaptiveAvgPool2d_ 1 1)
          [Dropout_ (2 # 10); Linear_ (Linear.init (w 1280) nc)]) in
  map kind (modules (net w nc)) = map kind (modules (net w' nc')) /\
  length (modules (net w nc)) = 142%nat /\
  count Conv2d_kind (modules (net w nc)) = 52%nat /\
  count BatchNorm2d_kind (modules (net w nc)) = 52%nat /\
  count ReLU6_kind (modules (net w nc)) = 35%nat /\
  count Linear_kind (modules (net w nc)) = 1%nat.
Proof.
  cbv zeta. repeat split; vm_compute; reflexivity.
Qed.

End Topology.

(** X12. The topology of the network does not depend on the arguments of
    the constructor: for any two argument triples it accepts, the two
    networks have the same classes of modules in the same order; there are
    142 primitive modules, of which 52 convolutions, 52 normalisations, 35
    [ReLU6] and one linear map.  [alpha] and [round_nearest] change widths
    only. *)
Theorem X12_topology_fixed
        (num_classes num_classes' : Z) (alpha alpha' : Q)
        (round_nearest round_nearest' : Z) (net net' : MobileNetV2.t) :
  MobileNetV2.init num_classes alpha round_nearest = OK net ->
  MobileNetV2.init num_classes' alpha' round_nearest' = OK net' ->
  map kind (MobileNetV2.modules net) = map kind (MobileNetV2.modules net') /\
  length (MobileNetV2.modules net) = 142%nat /\
  count Conv2d_kind (MobileNetV2.modules net) = 52%nat /\
  count BatchNorm2d_kind (MobileNetV2.modules net) = 52%nat /\
  count ReLU6_kind (MobileNetV2.modules net) = 35%nat /\
  count Linear_kind (MobileNetV2.modules net) = 1%nat.
Proof.
  intros Hnet Hnet'.
  destruct (Z.eq_dec round_nearest 0) as [->|Hrn].
  { rewrite init_raises in Hnet. discriminate. }
  destruct (Z.eq_dec round_nearest' 0) as [->|Hrn'].
  { rewrite init_raises in Hnet'. discriminate. }
  rewrite (init_blocks num_classes alpha round_nearest Hrn) in Hnet.
  rewrite (init_blocks num_classes' alpha' round_nearest' Hrn') in Hnet'.
  apply OK_inj in Hnet. apply OK_inj in Hnet'. subst net net'.
  apply (kinds_network (width alpha round_nearest) (width alpha' round_nearest')
                       num_classes num_classes').
Qed.

Lemma X12_topology_fixed_witness :
  exists net net',
    MobileNetV2.init 1000 1 8 = OK net /\
    MobileNetV2.init 10 (1 # 2) 4 = OK net' /\
    map kind (MobileNetV2.modules net) = map kind (MobileNetV2.modules net').
Proof.
  eexists _, _. split; [vm_compute; reflexivity|]. split; [vm_compute; reflexivity|].
  apply (X12_topology_fixed 1000 10 1 (1 # 2)%Q 8 4); vm_compute; reflexivity.
Defined.

(** X13. Every convolution of every network the constructor returns has one
    of three shapes: pointwise (kernel 1, padding 0, stride 1, one group),
    depthwise (kernel 3, padding 1, as many groups as channels, as many
    output as input channels), or the image convolution (kernel 3, padding
    1, stride 2, one group, 3 input channels), which is the first module of
    the network.  So the padding [(kernel_size - 1) // 2] keeps the spatial
    size at stride 1 everywhere. *)
Theorem X13_conv_shapes
        (num_classes : Z) (alpha : Q) (round_nearest : Z) (net : MobileNetV2.t) :
  MobileNetV2.init num_classes alpha round_nearest = OK net ->
  (forall c,
      In (Conv2d_ c) (MobileNetV2.modules net) ->
      pointwise c \/ depthwise c \/ image_conv c) /\
  (exists c, hd_error (MobileNetV2.modules net) = Some (Conv2d_ c) /\ image_conv c).
Proof.
  intros Hnet.
  destruct (Z.eq_dec round_nearest 0) as [->|Hrn].
  { rewrite init_raises in Hnet. discriminate. }
  split.
  - intros c Hin.
    assert (H : Forall conv_shaped (MobileNetV2.modules net)).
    { apply (modules_Forall _ num_classes alpha round_nearest net Hrn Hnet).
      - intros [c0| | | | |]; cbn; auto.
      - constructor; [|repeat (constructor; [exact I|]); constructor].
        right. right. repeat split.
      - constructor; [|repeat (constructor; [exact I|]); constructor].
        left. repeat split.
      - apply default_blocks_Forall. intros i o s t _ _ _. apply shaped_block.
      - exact I.
      - exact I.
      - exact I. }
    rewrite Forall_forall in H. exact (H _ Hin).
  - rewrite (init_blocks num_classes alpha round_nearest Hrn) in Hnet.
    apply OK_inj in Hnet. subst net.
    eexists. split; [reflexivity|]. repeat split.
Qed.

Lemma X13_conv_shapes_witness :
  exists net,
    MobileNetV2.init 1000 1 8 = OK net /\
    forall c,
      In (Conv2d_ c) (MobileNetV2.modules net) ->
      pointwise c \/ depthwise c \/ image_conv c.
Proof.
  eexists. split; [vm_compute; reflexivity|].
  apply (X13_conv_shapes 1000 1 8). vm_compute; reflexivity.
Defined.

(** X14. The forward pass of a block's pipeline, which runs the nested
    [ConvBNReLU] units one after the other, is the application of the
    primitive modules of the block in the order [modules()] lists them, for
    any block and any tensor semantics. *)
Theorem X14_pipeline_flat
        (Tensor : Type) (apply : Layer -> Tensor -> Tensor)
        (b : InvertedResidual.t) (x : Tensor) :
  pipeline Tensor apply b x =
    Sequential_forward Tensor apply (InvertedResidual.modules b) x.
Proof.
  unfold pipeline, Sequential_forward, InvertedResidual.modules.
  revert x. induction (InvertedResidual.conv b) as [|s rest IH]; intros x.
  - reflexivity.
  - cbn [fold_left flat_map]. rewrite fold_left_app, IH.
    destruct s; reflexivity.
Qed.

(** X15. With a positive granularity and [alpha <= 0] the constructor
    returns a degenerate network in which every width is the granularity
    itself: the stem, every block (input and output) and the input of the
    classifier's linear map all have [round_nearest] channels. *)
Theorem X15_degenerate_widths
        (num_classes : Z) (alpha : Q) (round_nearest : Z) (net : MobileNetV2.t) :
  0 < round_nearest ->
  (alpha <= 0)%Q ->
  MobileNetV2.init num_classes alpha round_nearest = OK net ->
  stem_channels net = Some round_nearest /\
  (forall b,
      In b (MobileNetV2.blocks (MobileNetV2.features net)) ->
      InvertedResidual.in_channels b = Some round_nearest /\
      InvertedResidual.out_channels b = Some round_nearest) /\
  (exists p l,
      MobileNetV2.classifier net = [Dropout_ p; Linear_ l] /\
      Linear.in_features l = round_nearest).
Proof.
  intros Hrn Ha Hnet.
  assert (Hw : forall c, 0 <= c -> width alpha round_nearest c = round_nearest)
    by (intros c Hc; apply width_degenerate; assumption).
  destruct (blocks_init num_classes alpha round_nearest net ltac:(lia) Hnet) as [Hstem Hbs].
  split; [rewrite Hstem, Hw by lia; reflexivity|]. split.
  - intros b Hin. rewrite Hbs in Hin.
    apply in_map_iff in Hin. destruct Hin as (b0 & <- & Hin0).
    assert (H : Forall (fun b => InvertedResidual.in_channels b = Some round_nearest /\
                                 InvertedResidual.out_channels b = Some round_nearest)
                       (setting_blocks (width alpha round_nearest)
                          (width alpha round_nearest 32)
                          MobileNetV2.inverted_residual_setting)).
    { apply default_blocks_Forall. intros i o s t Hi Ho _.
      rewrite in_channels_init, out_channels_init.
      assert (Ei : i = round_nearest).
      { cbn in Hi. repeat (destruct Hi as [<-|Hi]; [apply Hw; lia|]). contradiction. }
      assert (Eo : o = round_nearest).
      { cbn in Ho. repeat (destruct Ho as [<-|Ho]; [apply Hw; lia|]). contradiction. }
      subst. split; reflexivity. }
    rewrite Forall_forall in H. destruct (H _ Hin0) as [Hi Ho].
    pose proof (built_default (width alpha round_nearest) (width alpha round_nearest 32))
      as Hb.
    rewrite Forall_forall in Hb.
    rewrite (in_channels_pass _ (Hb _ Hin0)), (out_channels_pass _ (Hb _ Hin0)).
    split; assumption.
  - rewrite (init_blocks num_classes alpha round_nearest ltac:(lia)) in Hnet.
    apply OK_inj in Hnet. subst net.
    eexists _, _. split; [reflexivity|]. cbn. apply Hw. lia.
Qed.

Lemma X15_degenerate_widths_witness :
  exists net,
    0 < 8 /\ (- (1 # 2) <= 0)%Q /\
    MobileNetV2.init 5 (- (1 # 2)) 8 = OK net /\
    stem_channels net = Some 8.
Proof.
  eexists. split; [lia|]. split; [unfold Qle; simpl; lia|].
  split; [vm_compute; reflexivity|].
  apply (X15_degenerate_widths 5 (- (1 # 2))%Q 8);
    [lia|unfold Qle; simpl; lia|vm_compute; reflexivity].
Defined.

(** ** Binary64 rounding *)

Section Binary64.

Import B64.

Lemma pow2_pos (e : Z) : (0 < pow2 e)%Q.
Proof. apply Qpower_0_lt. reflexivity. Qed.

Lemma pow2_add (a b : Z) : (pow2 (a + b) == pow2 a * pow2 b)%Q.
Proof. apply Qpower_plus. discriminate. Qed.

Lemma pow2_le (a b : Z) : a <= b -> (pow2 a <= pow2 b)%Q.
Proof. intros H. apply Qpower_le_compat_l; [exact H|]. unfold Qle; simpl; lia. Qed.

Lemma pow2_lt_inv (a b : Z) : (pow2 a < pow2 b)%Q -> a < b.
Proof.
  intros H. destruct (Z_lt_le_dec a b) as [Hlt|Hle]; [exact Hlt|].
  apply pow2_le in Hle. lra.
Qed.

Lemma pow2_inject (a : Z) : 0 <= a -> (pow2 a == inject_Z (2 ^ a))%Q.
Proof. intros H. unfold pow2. rewrite Zpower_Qpower by exact H. reflexivity. Qed.

Lemma pow2_cancel (e : Z) : (pow2 (- e) * pow2 e == 1)%Q.
Proof. rewrite <- pow2_add. replace (- e + e) with 0 by lia. reflexivity. Qed.

Lemma ilog2_spec (y : Q) :
  (0 < y)%Q -> (pow2 (ilog2 y) <= y)%Q /\ (y < pow2 (ilog2 y + 1))%Q.
Proof.
  intros Hy. destruct y as [n d]. unfold ilog2. cbn [Qnum Qden].
  assert (Hn : 0 < n) by (unfold Qlt in Hy; simpl in Hy; lia).
  pose proof (Z.log2_spec n Hn) as [Ha1 Ha2].
  pose proof (Z.log2_spec (Zpos d) ltac:(lia)) as [Hb1 Hb2].
  pose proof (Z.log2_nonneg n) as Ha0.
  pose proof (Z.log2_nonneg (Zpos d)) as Hb0.
  set (a := Z.log2 n) in *. set (b := Z.log2 (Zpos d)) in *.
  rewrite Z.pow_succ_r in Ha2, Hb2 by assumption.
  assert (HA : (pow2 a == inject_Z (2 ^ a))%Q) by (apply pow2_inject; assumption).
  assert (HB : (pow2 b == inject_Z (2 ^ b))%Q) by (apply pow2_inject; assumption).
  assert (HK : (pow2 (a - b) * pow2 b == pow2 a)%Q).
  { rewrite <- pow2_add. replace (a - b + b) with a by lia. reflexivity. }
  assert (HK1 : (pow2 (a - b + 1) == 2 * pow2 (a - b))%Q).
  { rewrite pow2_add. change (pow2 1) with 2%Q. ring. }
  assert (HK2 : (pow2 (a - b - 1 + 1) == pow2 (a - b))%Q).
  { replace (a - b - 1 + 1) with (a - b) by lia. reflexivity. }
  assert (HK3 : (2 * pow2 (a - b - 1) == pow2 (a - b))%Q).
  { rewrite <- HK2 at 1. rewrite pow2_add. change (pow2 1) with 2%Q. ring. }
  pose proof (pow2_pos (a - b)) as Hk. pose proof (pow2_pos b) as Hpb.
  pose proof (pow2_pos (a - b - 1)) as Hk'.
  set (Y := (n # d)%Q) in *.
  assert (HY : (Y * inject_Z (Zpos d) == inject_Z n)%Q).
  { subst Y. unfold Qeq, Qmult, inject_Z. simpl. lia. }
  assert (HD : (0 < inject_Z (Zpos d))%Q) by (unfold Qlt; simpl; lia).
  rewrite Zle_Qle in Ha1, Hb1. rewrite Zlt_Qlt in Ha2, Hb2.
  rewrite inject_Z_mult in Ha2, Hb2. change (inject_Z 2) with 2%Q in *.
  rewrite <- HA in Ha1, Ha2. rewrite <- HB in Hb1, Hb2.
  set (N := inject_Z n) in *. set (D := inject_Z (Zpos d)) in *.
  set (K := pow2 (a - b)) in *. set (B := pow2 b) in *. set (A := pow2 a) in *.
  assert (Hup : (Y < 2 * K)%Q).
  { apply Qnot_le_lt. intros C. 
    assert ((2 * K) * B <= Y * D)%Q.
    { apply Qle_trans with (Y * B)%Q.
      - apply Qmult_le_compat_r; lra.
      - rewrite !(Qmult_comm Y). apply Qmult_le_compat_r; lra. }
    assert (2 * K * B == 2 * A)%Q by (rewrite <- HK; ring). lra. }
  assert (Hlo : (pow2 (a - b - 1) < Y)%Q).
  { apply Qnot_le_lt. intros C.
    assert (Y * D <= pow2 (a - b - 1) * D)%Q by (apply Qmult_le_compat_r; lra).
    assert (pow2 (a - b - 1) * D < pow2 (a - b - 1) * (2 * B))%Q.
    { rewrite !(Qmult_comm (pow2 (a - b - 1))). apply Qmult_lt_compat_r; lra. }
    assert (pow2 (a - b - 1) * (2 * B) == A)%Q.
    { rewrite <- HK. fold K. rewrite <- HK3. ring. }
    lra. }
  destruct (Qle_bool K Y) eqn:E.
  - apply Qle_bool_iff in E. split; [exact E|]. rewrite HK1. exact Hup.
  - split; [lra|]. rewrite HK2. apply Qnot_le_lt. intros C.
    apply Qle_bool_iff in C. congruence.
Qed.

Lemma ilog2_mono (x y : Q) : (0 < x)%Q -> (x <= y)%Q -> ilog2 x <= ilog2 y.
Proof.
  intros Hx Hxy.
  destruct (ilog2_spec x Hx) as [H1 _].
  destruct (ilog2_spec y ltac:(lra)) as [_ H2].
  assert (H : ilog2 x < ilog2 y + 1) by (apply pow2_lt_inv; lra).
  lia.
Qed.

Lemma rne_cases (q : Q) : rne q = Qfloor q \/ rne q = Qfloor q + 1.
Proof.
  unfold rne. destruct (_ ?= _)%Q; [destruct (Z.even _)| |]; auto.
Qed.

Lemma rne_mono (p q : Q) : (p <= q)%Q -> rne p <= rne q.
Proof.
  intros Hpq.
  pose proof (Qfloor_resp_le p q Hpq) as Hf.
  destruct (Z.eq_dec (Qfloor p) (Qfloor q)) as [E|N].
  - unfold rne. rewrite <- E.
    destruct (p - inject_Z (Qfloor p) ?= 1 # 2)%Q eqn:Cp;
      destruct (q - inject_Z (Qfloor p) ?= 1 # 2)%Q eqn:Cq;
      try (destruct (Z.even (Qfloor p))); try lia;
      first [apply Qeq_alt in Cp | apply Qlt_alt in Cp | apply Qgt_alt in Cp];
      first [apply Qeq_alt in Cq | apply Qlt_alt in Cq | apply Qgt_alt in Cq];
      lra.
  - destruct (rne_cases p) as [-> | ->]; destruct (rne_cases q) as [-> | ->]; lia.
Qed.

Lemma rne_Z (n : Z) : rne (inject_Z n) = n.
Proof.
  unfold rne. rewrite Qfloor_Z.
  assert (H : (inject_Z n - inject_Z n ?= 1 # 2)%Q = Lt).
  { rewrite <- Qlt_alt. lra. }
  rewrite H. reflexivity.
Qed.

Lemma rne_eq (p q : Q) : (p == q)%Q -> rne p = rne q.
Proof.
  intros H. apply Z.le_antisymm; apply rne_mono; lra.
Qed.

Lemma ex_lower (y : Q) : -1074 <= ex y.
Proof. unfold ex. lia. Qed.

Lemma scale_mono (e : Z) (x y : Q) : (x <= y)%Q -> (x * pow2 e <= y * pow2 e)%Q.
Proof.
  intros H. apply Qmult_le_compat_r; [exact H|]. pose proof (pow2_pos e). lra.
Qed.

Lemma round_pos_mono (x y : Q) :
  (0 < x)%Q -> (x <= y)%Q -> (round_pos x <= round_pos y)%Q.
Proof.
  intros Hx Hxy. unfold round_pos.
  assert (He : ex x <= ex y).
  { unfold ex. pose proof (ilog2_mono x y Hx Hxy). lia. }
  destruct (Z.eq_dec (ex x) (ex y)) as [E|N].
  - rewrite E. apply scale_mono. rewrite <- Zle_Qle. apply rne_mono.
    apply scale_mono. exact Hxy.
  - assert (Hlt : ex x + 1 <= ex y) by lia.
    assert (Ey : ex y = ilog2 y - 52) by (unfold ex in *; lia).
    destruct (ilog2_spec y ltac:(lra)) as [Hy1 _].
    destruct (ilog2_spec x Hx) as [_ Hx2].
    assert (Hx53 : (x < pow2 (ex x + 53))%Q).
    { apply Qlt_le_trans with (pow2 (ilog2 x + 1)); [exact Hx2|].
      apply pow2_le. unfold ex. lia. }
    (* upper bound for x *)
    assert (Ux : rne (x * pow2 (- ex x)) <= 2 ^ 53).
    { rewrite <- (rne_Z (2 ^ 53)). apply rne_mono.
      rewrite <- (pow2_inject 53) by lia.
      setoid_replace (pow2 53) with (pow2 (ex x + 53) * pow2 (- ex x))%Q.
      - apply scale_mono. lra.
      - rewrite <- pow2_add. replace (ex x + 53 + - ex x) with 53 by lia. reflexivity. }
    assert (Ly : 2 ^ 52 <= rne (y * pow2 (- ex y))).
    { rewrite <- (rne_Z (2 ^ 52)) at 1. apply rne_mono.
      rewrite <- (pow2_inject 52) by lia.
      setoid_replace (pow2 52) with (pow2 (ilog2 y) * pow2 (- ex y))%Q.
      - apply scale_mono. exact Hy1.
      - rewrite <- pow2_add. replace (ilog2 y + - ex y) with 52 by lia. reflexivity. }
    rewrite Zle_Qle in Ux, Ly.
    rewrite <- (pow2_inject 53) in Ux by lia. rewrite <- (pow2_inject 52) in Ly by lia.
    apply Qle_trans with (pow2 53 * pow2 (ex x))%Q; [apply scale_mono; exact Ux|].
    apply Qle_trans with (pow2 52 * pow2 (ex y))%Q; [|apply scale_mono; exact Ly].
    rewrite <- !pow2_add. apply pow2_le. lia.
Qed.

Lemma round_pos_nonneg (y : Q) : (0 < y)%Q -> (0 <= round_pos y)%Q.
Proof.
  intros Hy. unfold round_pos.
  assert (H : 0 <= rne (y * pow2 (- ex y))).
  { rewrite <- (rne_Z 0) at 1. apply rne_mono.
    pose proof (pow2_pos (- ex y)). change (inject_Z 0) with 0%Q.
    apply Qmult_le_0_compat; lra. }
  rewrite Zle_Qle in H. change (inject_Z 0) with 0%Q in H.
  pose proof (pow2_pos (ex y)). apply Qmult_le_0_compat; lra.
Qed.

Lemma b64_pos (y : Q) : (0 < y)%Q -> b64 y = round_pos y.
Proof. intros H. unfold b64. rewrite Qlt_alt in H. rewrite H. reflexivity. Qed.

Lemma b64_neg (y : Q) : (y < 0)%Q -> b64 y = (- round_pos (- y))%Q.
Proof. intros H. unfold b64. rewrite Qgt_alt in H. rewrite H. reflexivity. Qed.

Lemma b64_zero (y : Q) : (y == 0)%Q -> b64 y = 0%Q.
Proof.
  intros H. unfold b64. assert (E : (0 ?= y)%Q = Eq) by (rewrite <- Qeq_alt; lra).
  rewrite E. reflexivity.
Qed.

(** Rounding to binary64 is monotone. *)
Lemma b64_mono (x y : Q) : (x <= y)%Q -> (b64 x <= b64 y)%Q.
Proof.
  intros Hxy.
  destruct (Q_dec 0 x) as [[Hx|Hx]|Hx]; destruct (Q_dec 0 y) as [[Hy|Hy]|Hy];
    try lra.
  - rewrite (b64_pos x Hx), (b64_pos y Hy). apply round_pos_mono; assumption.
  - rewrite (b64_neg x Hx), (b64_pos y Hy).
    pose proof (round_pos_nonneg (- x) ltac:(lra)).
    pose proof (round_pos_nonneg y Hy). lra.
  - rewrite (b64_neg x Hx), (b64_neg y Hy).
    pose proof (round_pos_mono (- y) (- x) ltac:(lra) ltac:(lra)). lra.
  - rewrite (b64_neg x Hx), (b64_zero y) by lra.
    pose proof (round_pos_nonneg (- x) ltac:(lra)). lra.
  - rewrite (b64_zero x), (b64_pos y Hy) by lra.
    apply round_pos_nonneg. exact Hy.
  - rewrite (b64_zero x), (b64_zero y) by lra. lra.
Qed.

Lemma b64_eq (x y : Q) : (x == y)%Q -> (b64 x == b64 y)%Q.
Proof. intros H. apply Qle_antisym; apply b64_mono; lra. Qed.

(** A number [n * 2^t] with [|n| < 2^53] and [t >= -1074] is a binary64
    number: rounding leaves it alone. *)
Lemma round_pos_exact (y : Q) (n t : Z) :
  (y == inject_Z n * pow2 t)%Q -> 0 < n < 2 ^ 53 -> -1074 <= t ->
  (round_pos y == y)%Q.
Proof.
  intros Hy Hn Ht.
  assert (Hn0 : (0 < inject_Z n)%Q) by (unfold Qlt; simpl; lia).
  pose proof (pow2_pos t) as Hpt.
  assert (Hy0 : (0 < y)%Q).
  { rewrite Hy. apply Qmult_lt_0_compat; assumption. }
  destruct (ilog2_spec y Hy0) as [Hl _].
  assert (Hup : (y < pow2 (t + 53))%Q).
  { rewrite Hy, pow2_add, (Qmult_comm (pow2 t)).
    apply Qmult_lt_compat_r; [exact Hpt|].
    rewrite (pow2_inject 53) by lia. rewrite <- Zlt_Qlt. lia. }
  assert (Hi : ilog2 y < t + 53) by (apply pow2_lt_inv; lra).
  assert (He : ex y <= t) by (unfold ex; lia).
  unfold round_pos.
  assert (Hs : (y * pow2 (- ex y) == inject_Z (n * 2 ^ (t - ex y)))%Q).
  { apply Qeq_trans with (inject_Z n * pow2 t * pow2 (- ex y))%Q.
    - apply Qmult_comp; [exact Hy|reflexivity].
    - rewrite inject_Z_mult, <- (pow2_inject (t - ex y)) by lia.
      rewrite <- Qmult_assoc, <- pow2_add.
      replace (t + - ex y) with (t - ex y) by lia. reflexivity. }
  rewrite (rne_eq _ _ Hs), rne_Z.
  rewrite inject_Z_mult, <- (pow2_inject (t - ex y)) by lia.
  rewrite <- Qmult_assoc, <- pow2_add.
  replace (t - ex y + ex y) with t by lia. symmetry. exact Hy.
Qed.

Lemma b64_exact (y : Q) (n t : Z) :
  (y == inject_Z n * pow2 t)%Q -> Z.abs n < 2 ^ 53 -> -1074 <= t ->
  (b64 y == y)%Q.
Proof.
  intros Hy Hn Ht.
  pose proof (pow2_pos t) as Hpt.
  destruct (Z.lt_trichotomy n 0) as [Hneg|[->|Hpos]].
  - assert (Hn0 : (inject_Z n < 0)%Q) by (unfold Qlt; simpl; lia).
    assert (Hy0 : (y < 0)%Q).
    { rewrite Hy. setoid_replace 0%Q with (0 * pow2 t)%Q by ring.
      apply Qmult_lt_compat_r; assumption. }
    rewrite (b64_neg y Hy0).
    rewrite (round_pos_exact (- y) (- n) t); [ring| |lia|exact Ht].
    rewrite Hy, inject_Z_opp. ring.
  - rewrite b64_zero; [symmetry|]; rewrite Hy; change (inject_Z 0) with 0%Q; ring.
  - assert (Hn0 : (0 < inject_Z n)%Q) by (unfold Qlt; simpl; lia).
    assert (Hy0 : (0 < y)%Q) by (rewrite Hy; apply Qmult_lt_0_compat; assumption).
    rewrite (b64_pos y Hy0). apply (round_pos_exact y n t); [exact Hy|lia|exact Ht].
Qed.

Lemma b64_int (n : Z) : Z.abs n < 2 ^ 53 -> (b64 (inject_Z n) == inject_Z n)%Q.
Proof.
  intros H. apply (b64_exact _ n 0); [|exact H|lia].
  change (pow2 0) with 1%Q. ring.
Qed.

Lemma b64_pow2 (e : Z) : -1074 <= e -> (b64 (pow2 e) == pow2 e)%Q.
Proof.
  intros H. apply (b64_exact _ 1 e); [|reflexivity|exact H].
  change (inject_Z 1) with 1%Q. ring.
Qed.

Lemma pow2_lt (a b : Z) : a < b -> (pow2 a < pow2 b)%Q.
Proof.
  intros H. apply Qpower_lt_compat_l; [exact H|]. unfold Qlt; simpl; lia.
Qed.

Lemma b64_opp_pow2 (e : Z) : -1074 <= e -> (b64 (- pow2 e) == - pow2 e)%Q.
Proof.
  intros H. apply (b64_exact _ (-1) e); [|reflexivity|exact H].
  change (inject_Z (-1)) with (-1)%Q. ring.
Qed.

(** A result of magnitude at most [2^e], [e < 1024], does not overflow. *)
Lemma round_bounded (y : Q) (e : Z) :
  -1074 <= e < 1024 ->
  (- pow2 e <= y)%Q -> (y <= pow2 e)%Q ->
  round y = Finite (b64 y) /\ (- pow2 e <= b64 y)%Q /\ (b64 y <= pow2 e)%Q.
Proof.
  intros He Hlo Hhi.
  pose proof (b64_mono _ _ Hlo) as H1. pose proof (b64_mono _ _ Hhi) as H2.
  rewrite b64_opp_pow2 in H1 by lia. rewrite b64_pow2 in H2 by lia.
  pose proof (pow2_lt e 1024 ltac:(lia)) as Hov.
  split; [|split; assumption].
  unfold round, overflow.
  destruct (Qle_bool (pow2 1024) (b64 y)) eqn:E1.
  { apply Qle_bool_iff in E1. lra. }
  destruct (Qle_bool (b64 y) (- pow2 1024)) eqn:E2.
  { apply Qle_bool_iff in E2. lra. }
  reflexivity.
Qed.

Lemma pow2_double (e : Z) : (pow2 e + pow2 e == pow2 (e + 1))%Q.
Proof. rewrite pow2_add. change (pow2 1) with 2%Q. ring. Qed.

Lemma inject_pow2_bounds (d e : Z) :
  0 <= e -> - 2 ^ e <= d <= 2 ^ e ->
  (- pow2 e <= inject_Z d)%Q /\ (inject_Z d <= pow2 e)%Q.
Proof.
  intros He [H1 H2]. rewrite (pow2_inject e He).
  rewrite <- inject_Z_opp, <- !Zle_Qle. lia.
Qed.

(** The literal [0.9] is a finite float between 0 and 1. *)
Lemma c09_value :
  c09 = Finite (b64 (9 # 10)) /\ (0 <= b64 (9 # 10))%Q /\ (b64 (9 # 10) <= 1)%Q.
Proof.
  split; [vm_compute; reflexivity|]. split.
  - rewrite <- (b64_zero 0) at 1 by reflexivity. apply b64_mono. lra.
  - assert (H : (b64 1 == 1)%Q) by (apply (b64_pow2 0); lia).
    rewrite <- H. apply b64_mono. lra.
Qed.

(** Above an integer [v] with [1 <= v < 2^53] there is a binary64 number
    at relative distance at most [2^-52]. *)
Lemma succ_representable (v : Z) :
  1 <= v < 2 ^ 53 ->
  exists r : Q,
    (inject_Z v < r)%Q /\ (r <= inject_Z v * (1 + pow2 (-52)))%Q /\ (b64 r == r)%Q.
Proof.
  intros Hv.
  set (L := Z.log2 v).
  destruct (Z.log2_spec v ltac:(lia)) as [HL1 HL2]. fold L in HL1, HL2.
  assert (HL0 : 0 <= L) by apply Z.log2_nonneg.
  assert (HL52 : L <= 52).
  { destruct (Z_lt_le_dec 52 L) as [H|H]; [|exact H].
    assert (2 ^ 53 <= 2 ^ L) by (apply Z.pow_le_mono_r; lia). lia. }
  pose proof (pow2_pos (L - 52)) as Hp.
  exists (inject_Z v + pow2 (L - 52))%Q.
  assert (E1 : (pow2 (L - 52) == inject_Z (2 ^ L) * pow2 (-52))%Q).
  { rewrite <- (pow2_inject L HL0), <- pow2_add. reflexivity. }
  pose proof (pow2_pos (-52)) as Hp52.
  split; [lra|]. split.
  - assert (H : (inject_Z (2 ^ L) * pow2 (-52) <= inject_Z v * pow2 (-52))%Q).
    { apply Qmult_le_compat_r; [rewrite <- Zle_Qle; exact HL1|lra]. }
    assert (E2 : (inject_Z v * (1 + pow2 (-52)) == inject_Z v + inject_Z v * pow2 (-52))%Q)
      by ring.
    lra.
  - set (n := v * 2 ^ (52 - L) + 1).
    assert (Hpow : 0 < 2 ^ (52 - L)) by (apply Z.pow_pos_nonneg; lia).
    assert (Hn : n <= 2 ^ 53).
    { assert (E : 2 ^ 53 = 2 ^ (L + 1) * 2 ^ (52 - L)).
      { rewrite <- Z.pow_add_r by lia. f_equal. lia. }
      assert ((v + 1) * 2 ^ (52 - L) <= 2 ^ (L + 1) * 2 ^ (52 - L))
        by (apply Z.mul_le_mono_nonneg_r; lia).
      subst n. lia. }
    assert (En : (inject_Z v + pow2 (L - 52) == inject_Z n * pow2 (L - 52))%Q).
    { subst n. rewrite inject_Z_plus, inject_Z_mult, <- (pow2_inject (52 - L)) by lia.
      change (inject_Z 1) with 1%Q.
      assert (Ec : (pow2 (52 - L) * pow2 (L - 52) == 1)%Q).
      { rewrite <- pow2_add. replace (52 - L + (L - 52)) with 0 by lia. reflexivity. }
      setoid_replace ((inject_Z v * pow2 (52 - L) + 1) * pow2 (L - 52))%Q
        with (inject_Z v * (pow2 (52 - L) * pow2 (L - 52)) + pow2 (L - 52))%Q by ring.
      rewrite Ec. ring. }
    destruct (Z_lt_le_dec n (2 ^ 53)) as [Hlt|Hge].
    + apply (b64_exact _ n (L - 52)); [exact En| |lia].
      assert (0 < n) by (subst n; nia). lia.
    + assert (Eq53 : n = 2 ^ 53) by lia.
      assert (Er : (inject_Z v + pow2 (L - 52) == pow2 (L + 1))%Q).
      { rewrite En, Eq53, <- (pow2_inject 53) by lia. rewrite <- pow2_add.
        replace (53 + (L - 52)) with (L + 1) by lia. reflexivity. }
      rewrite (b64_eq _ _ Er), Er. apply b64_pow2. lia.
Qed.

(** So a number that rounds to at most [v] exceeds [v] by a relative
    [2^-52] at most. *)
Lemma rounded_below (x : Q) (v : Z) :
  1 <= v < 2 ^ 53 ->
  (b64 x <= inject_Z v)%Q ->
  (x <= inject_Z v * (1 + pow2 (-52)))%Q.
Proof.
  intros Hv Hx.
  destruct (succ_representable v Hv) as (r & Hr1 & Hr2 & Hr3).
  destruct (Qlt_le_dec r x) as [H|H]; [|lra].
  pose proof (b64_mono r x ltac:(lra)) as Hm. lra.
Qed.

End Binary64.

(** ** The rounding rule in binary64 *)

Section MakeDivisibleB64.

Import B64.

Lemma scaled_bounds (c x B : Q) :
  (0 <= c)%Q -> (c <= 1)%Q -> (- B <= x)%Q -> (x <= B)%Q ->
  (- B <= c * x)%Q /\ (c * x <= B)%Q.
Proof.
  intros Hc0 Hc1 Hlo Hhi.
  destruct (Qlt_le_dec x 0) as [Hx|Hx].
  - assert (H1 : (0 <= c * - x)%Q) by (apply Qmult_le_0_compat; lra).
    assert (H2 : (0 <= (1 - c) * - x)%Q) by (apply Qmult_le_0_compat; lra).
    assert (E1 : (c * - x == - (c * x))%Q) by ring.
    assert (E2 : ((1 - c) * - x == c * x - x)%Q) by ring.
    split; lra.
  - assert (H1 : (0 <= c * x)%Q) by (apply Qmult_le_0_compat; lra).
    assert (H2 : (0 <= (1 - c) * x)%Q) by (apply Qmult_le_0_compat; lra).
    assert (E2 : ((1 - c) * x == x - c * x)%Q) by ring.
    split; lra.
Qed.

(** For a finite [ch] and a non-zero divisor, both of magnitude at most
    [2^1000], no operation overflows and the function returns the candidate,
    or the candidate plus one divisor when it is below the rounded
    product. *)
Lemma _make_divisible_b64_eq (ch : Q) (divisor : Z) (min_ch : option Z) :
  divisor <> 0 ->
  - 2 ^ 1000 <= divisor <= 2 ^ 1000 ->
  (- pow2 1000 <= ch)%Q -> (ch <= pow2 1000)%Q ->
  let m := match min_ch with None => divisor | Some m => m end in
  let half := b64 (inject_Z divisor / 2) in
  let s := b64 (ch + half) in
  let p := b64 (b64 (9 # 10) * ch) in
  let new_ch := Z.max m (Py.int s / divisor * divisor) in
  _make_divisible_b64 (Finite ch) divisor min_ch =
    OK (if lt (inject_Z new_ch) p then new_ch + divisor else new_ch) /\
  mul c09 (Finite ch) = Finite p /\
  add (Finite ch) (Finite half) = Finite s.
Proof.
  intros Hd Hdb Hlo Hhi m half s p new_ch.
  destruct (inject_pow2_bounds divisor 1000 ltac:(lia) Hdb) as [Hd1 Hd2].
  pose proof (inject_half divisor) as Hh.
  pose proof (pow2_pos 1000) as Hp.
  destruct (round_bounded (inject_Z divisor / 2) 1000 ltac:(lia) ltac:(lra) ltac:(lra))
    as (Rh & Hh1 & Hh2).
  fold half in Rh, Hh1, Hh2.
  pose proof (pow2_double 1000) as Hdbl.
  destruct (round_bounded (ch + half) (1000 + 1) ltac:(lia) ltac:(lra) ltac:(lra))
    as (Rs & _ & _).
  fold s in Rs.
  destruct c09_value as (Ec & Hc0 & Hc1).
  destruct (scaled_bounds (b64 (9 # 10)) ch (pow2 1000) Hc0 Hc1 Hlo Hhi) as [Hp1 Hp2].
  destruct (round_bounded (b64 (9 # 10) * ch) 1000 ltac:(lia) Hp1 Hp2) as (Rp & _ & _).
  fold p in Rp.
  assert (Hmul : mul c09 (Finite ch) = Finite p).
  { rewrite Ec. cbn [mul]. exact Rp. }
  assert (Hadd : add (Finite ch) (Finite half) = Finite s) by exact Rs.
  split; [|split; assumption].
  unfold _make_divisible_b64, truediv_int.
  change (2 =? 0) with false. cbv iota.
  change (inject_Z divisor / inject_Z 2)%Q with (inject_Z divisor / 2)%Q.
  rewrite Rh. cbn [bind]. rewrite Hadd. cbn [int bind].
  unfold floordiv. apply Z.eqb_neq in Hd. rewrite Hd. cbn [bind].
  fold m. fold new_ch. rewrite Hmul. cbn [lt_int].
  destruct (lt (inject_Z new_ch) p); reflexivity.
Qed.

(** A finite float is not above its sum with a non-negative float, and the
    product with the literal 0.9 is not above a non-negative float. *)
Lemma sum_above (ch half : Q) :
  (b64 ch == ch)%Q -> (0 <= half)%Q -> (ch <= b64 (ch + half))%Q.
Proof.
  intros Hr Hh. rewrite <- Hr at 1. apply b64_mono. lra.
Qed.

Lemma product_below (ch : Q) :
  (b64 ch == ch)%Q -> (0 <= ch)%Q ->
  (0 <= b64 (b64 (9 # 10) * ch))%Q /\ (b64 (b64 (9 # 10) * ch) <= ch)%Q.
Proof.
  intros Hr Hch. destruct c09_value as (_ & Hc0 & Hc1). split.
  - rewrite <- (b64_zero 0) at 1 by reflexivity. apply b64_mono.
    apply Qmult_le_0_compat; assumption.
  - rewrite <- Hr at 2. apply b64_mono.
    assert (H : (0 <= (1 - b64 (9 # 10)) * ch)%Q) by (apply Qmult_le_0_compat; lra).
    assert (E : ((1 - b64 (9 # 10)) * ch == ch - b64 (9 # 10) * ch)%Q) by ring.
    lra.
Qed.

Lemma half_nonneg (divisor : Z) : 0 <= divisor -> (0 <= b64 (inject_Z divisor / 2))%Q.
Proof.
  intros Hd. rewrite <- (b64_zero 0) at 1 by reflexivity. apply b64_mono.
  pose proof (inject_half divisor) as Hh.
  assert (H : (0 <= inject_Z divisor)%Q) by (unfold Qle; simpl; lia).
  lra.
Qed.

End MakeDivisibleB64.

Section MakeDivisibleB64Values.

Import B64.

(** The value returned for a finite non-negative float and a positive
    divisor: it is the candidate or the candidate plus one divisor, and it
    is not below the rounded product [0.9 * ch]. *)
Lemma _make_divisible_b64_result (ch : Q) (divisor : Z) (min_ch : option Z) :
  (b64 ch == ch)%Q ->
  (0 <= ch)%Q -> (ch <= pow2 1000)%Q ->
  0 < divisor <= 2 ^ 1000 ->
  let m := match min_ch with None => divisor | Some m => m end in
  let s := b64 (ch + b64 (inject_Z divisor / 2)) in
  let p := b64 (b64 (9 # 10) * ch) in
  let new_ch := Z.max m (Qfloor s / divisor * divisor) in
  exists v,
    _make_divisible_b64 (Finite ch) divisor min_ch = OK v /\
    (v = new_ch \/ v = new_ch + divisor) /\
    mul c09 (Finite ch) = Finite p /\
    (p <= inject_Z v)%Q /\
    (p <= ch)%Q.
Proof.
  intros Hr Hch Hhi Hd m s p new_ch. subst new_ch p s m.
  pose proof (pow2_pos 1000) as Hp.
  destruct (_make_divisible_b64_eq ch divisor min_ch ltac:(lia) ltac:(lia)
              ltac:(lra) Hhi) as (He & Hm & _).
  cbv zeta in He, Hm.
  pose proof (half_nonneg divisor ltac:(lia)) as Hh.
  pose proof (sum_above ch _ Hr Hh) as Hs.
  destruct (product_below ch Hr Hch) as [Hp0 Hp1].
  set (s := b64 (ch + b64 (inject_Z divisor / 2))) in *.
  set (p := b64 (b64 (9 # 10) * ch)) in *.
  set (m := match min_ch with None => divisor | Some m => m end) in *.
  assert (Hs0 : (0 <= s)%Q) by lra.
  rewrite (int_floor s Hs0) in He.
  set (new_ch := Z.max m (Qfloor s / divisor * divisor)) in *.
  pose proof (Qlt_floor s) as Hfl.
  destruct (multiple_bounds (Qfloor s) divisor ltac:(lia)) as [_ Hmb].
  assert (Hc : Qfloor s + 1 <= new_ch + divisor) by (subst new_ch; lia).
  rewrite Zle_Qle in Hc.
  destruct (lt (inject_Z new_ch) p) eqn:G.
  - exists (new_ch + divisor). repeat split; auto. lra.
  - exists new_ch. apply lt_false in G. repeat split; auto.
Qed.

(** The literal [0.9] is not below nine tenths, so for a result below
    [2^53] the exact [0.9 * ch] exceeds the result by a relative [2^-52] at
    most. *)
Lemma _make_divisible_b64_relative (ch : Q) (divisor : Z) (min_ch : option Z) (v : Z) :
  (b64 ch == ch)%Q ->
  (0 <= ch)%Q -> (ch <= pow2 1000)%Q ->
  0 < divisor <= 2 ^ 1000 ->
  _make_divisible_b64 (Finite ch) divisor min_ch = OK v ->
  1 <= v < 2 ^ 53 ->
  ((9 # 10) * ch <= inject_Z v * (1 + pow2 (-52)))%Q.
Proof.
  intros Hr Hch Hhi Hd Hv Hb.
  destruct (_make_divisible_b64_result ch divisor min_ch Hr Hch Hhi Hd)
    as (v' & Hv' & _ & _ & Hp & _).
  rewrite Hv in Hv'. apply OK_inj in Hv'. subst v'.
  pose proof (rounded_below _ v Hb Hp) as Hx.
  assert (Hc : (9 # 10 <= b64 (9 # 10))%Q) by (vm_compute; discriminate).
  assert (H : (0 <= (b64 (9 # 10) - (9 # 10)) * ch)%Q) by (apply Qmult_le_0_compat; lra).
  assert (E : ((b64 (9 # 10) - (9 # 10)) * ch == b64 (9 # 10) * ch - (9 # 10) * ch)%Q)
    by ring.
  lra.
Qed.

(** With the divisor 8 and [ch <= 2^50] the result is below [2^53]. *)
Lemma _make_divisible_b64_small (ch : Q) (v : Z) :
  (0 <= ch)%Q -> (ch <= pow2 50)%Q ->
  _make_divisible_b64 (Finite ch) 8 None = OK v ->
  1 <= v < 2 ^ 53.
Proof.
  intros Hch Hhi Hv.
  pose proof (pow2_le 50 1000 ltac:(lia)) as Hle.
  pose proof (pow2_pos 1000) as Hp.
  destruct (_make_divisible_b64_eq ch 8 None ltac:(lia) ltac:(lia) ltac:(lra) ltac:(lra))
    as (He & _ & _).
  cbv zeta in He. rewrite He in Hv. apply OK_inj in Hv.
  assert (Hh : (b64 (inject_Z 8 / 2) == 4)%Q).
  { rewrite (b64_eq _ (inject_Z 4)) by reflexivity. apply b64_int. reflexivity. }
  assert (Hs : (b64 (ch + b64 (inject_Z 8 / 2)) <= inject_Z (2 ^ 50 + 4))%Q).
  { rewrite <- (b64_int (2 ^ 50 + 4)) by reflexivity. apply b64_mono.
    rewrite Hh, inject_Z_plus, <- (pow2_inject 50) by lia.
    change (inject_Z 4) with 4%Q. lra. }
  assert (Hs0 : (0 <= b64 (ch + b64 (inject_Z 8 / 2)))%Q).
  { rewrite <- (b64_zero 0) at 1 by reflexivity. apply b64_mono. rewrite Hh. lra. }
  rewrite (int_floor _ Hs0) in Hv.
  pose proof (Qfloor_resp_le _ _ Hs) as Hf. rewrite Qfloor_Z in Hf.
  pose proof (Qfloor_resp_le _ _ Hs0) as Hf0. change (Qfloor 0) with 0 in Hf0.
  set (i := Qfloor _) in *.
  destruct (multiple_bounds i 8 ltac:(lia)) as [Hm1 Hm2].
  assert (H50 : 2 ^ 50 + 4 + 16 < 2 ^ 53) by reflexivity.
  destruct (lt _ _) in Hv; lia.
Qed.

End MakeDivisibleB64Values.

(** C1, as stated, fails on the binary64 code.  At the float
    8.888888888888889 (= 16 * 0.5555555555555556) the product [0.9 * ch]
    rounds to 8.0, the guard [8 < 8.0] does not fire and 8 is returned,
    which is below the exact [0.9 * ch]. *)
Lemma C1_exact_bound_counterexample :
  ~ (forall raw : Q,
        B64.representable raw ->
        (0 <= raw)%Q ->
        exists k : Z,
          0 <= k /\
          _make_divisible_b64 (B64.Finite raw) 8 None = OK (8 * k) /\
          ((9 # 10) * raw <= inject_Z (8 * k))%Q).
Proof.
  intros H.
  destruct (H (2501999792983609 # 281474976710656)%Q) as (k & _ & Hk & Hb).
  - repeat split; vm_compute; reflexivity.
  - unfold Qle; simpl; lia.
  - assert (E : _make_divisible_b64
                  (B64.Finite (2501999792983609 # 281474976710656)) 8 None = OK 8)
      by (vm_compute; reflexivity).
    rewrite E in Hk. apply OK_inj in Hk. rewrite <- Hk in Hb.
    vm_compute in Hb. apply Hb. reflexivity.
Qed.

(** C1, amended.  For every finite binary64 [raw] with [0 <= raw <= 2^1000],
    [_make_divisible raw 8] (with [min_ch] unset) returns a positive
    multiple of 8 that is not below the product [0.9 * raw] as the code
    computes it, in binary64, also when the 10% guard fires (as at
    [raw = 18], where the candidate 16 becomes 24).  The exact [0.9 * raw]
    can be above the result, as at 8.888888888888889, but for [raw <= 2^50]
    by no more than a relative [2^-52]:
    [0.9 * raw <= result * (1 + 2^-52)].  And
    [_make_divisible (32 * 1.0) 8 = 32],
    [_make_divisible (1280 * 1.0) 8 = 1280]. *)
Theorem C1_make_divisible_b64_multiple_and_bound :
  (forall raw : Q,
      B64.representable raw ->
      (0 <= raw)%Q -> (raw <= B64.pow2 1000)%Q ->
      exists (k : Z) (p : Q),
        1 <= k /\
        _make_divisible_b64 (B64.Finite raw) 8 None = OK (8 * k) /\
        B64.mul B64.c09 (B64.Finite raw) = B64.Finite p /\
        (p <= inject_Z (8 * k))%Q /\
        ((raw <= B64.pow2 50)%Q ->
         ((9 # 10) * raw <= inject_Z (8 * k) * (1 + B64.pow2 (-52)))%Q))
  /\ (ch <- B64.mul_int 32 (B64.Finite 1) ;; _make_divisible_b64 ch 8 None) = OK 32
  /\ (ch <- B64.mul_int 1280 (B64.Finite 1) ;; _make_divisible_b64 ch 8 None) = OK 1280
  /\ _make_divisible_b64 (B64.Finite 18) 8 None = OK (16 + 8).
Proof.
  split; [|repeat split; vm_compute; reflexivity].
  intros raw (Hr & _ & _) Hraw Hhi.
  destruct (_make_divisible_b64_result raw 8 None Hr Hraw Hhi ltac:(lia))
    as (v & Hv & Hc & Hm & Hb & _).
  set (q := Qfloor _ / 8) in Hc.
  assert (Hk : exists k, 1 <= k /\ v = 8 * k).
  { destruct Hc as [-> | ->]; [exists (Z.max 1 q)|exists (Z.max 1 q + 1)]; lia. }
  destruct Hk as (k & Hk & ->).
  exists k, (B64.b64 (B64.b64 (9 # 10) * raw)).
  repeat split; auto.
  intros H50.
  apply (_make_divisible_b64_relative raw 8 None (8 * k) Hr Hraw Hhi ltac:(lia) Hv).
  apply (_make_divisible_b64_small raw (8 * k) Hraw H50 Hv).
Qed.

Lemma C1_make_divisible_b64_witness :
  B64.representable (2501999792983609 # 281474976710656) /\
  (0 <= 2501999792983609 # 281474976710656)%Q /\
  (2501999792983609 # 281474976710656 <= B64.pow2 1000)%Q /\
  exists (k : Z) (p : Q),
    1 <= k /\
    _make_divisible_b64 (B64.Finite (2501999792983609 # 281474976710656)) 8 None
    = OK (8 * k) /\
    B64.mul B64.c09 (B64.Finite (2501999792983609 # 281474976710656)) = B64.Finite p /\
    (p <= inject_Z (8 * k))%Q /\
    ((2501999792983609 # 281474976710656 <= B64.pow2 50)%Q ->
     ((9 # 10) * (2501999792983609 # 281474976710656)
      <= inject_Z (8 * k) * (1 + B64.pow2 (-52)))%Q).
Proof.
  split; [repeat split; vm_compute; reflexivity|].
  split; [unfold Qle; simpl; lia|].
  split; [vm_compute; discriminate|].
  apply (proj1 C1_make_divisible_b64_multiple_and_bound
               (2501999792983609 # 281474976710656)%Q).
  - repeat split; vm_compute; reflexivity.
  - unfold Qle; simpl; lia.
  - vm_compute; discriminate.
Defined.

(** C2, as stated, fails on the binary64 code: at the float
    8.888888888888889 with divisor 8 the code returns 8, the reference
    algorithm in exact arithmetic 16 (the candidate 8 is below the exact
    [0.9 * raw] but not below the rounded product). *)
Lemma C2_exact_reference_counterexample :
  ~ (forall (raw : Q) (divisor : Z) (min_ch : option Z),
        B64.representable raw ->
        (0 <= raw)%Q ->
        0 < divisor ->
        _make_divisible_b64 (B64.Finite raw) divisor min_ch =
          OK (round_channels raw divisor min_ch)).
Proof.
  intros H.
  specialize (H (2501999792983609 # 281474976710656)%Q 8 None).
  assert (E : _make_divisible_b64
                (B64.Finite (2501999792983609 # 281474976710656)) 8 None = OK 8)
    by (vm_compute; reflexivity).
  assert (R : round_channels (2501999792983609 # 281474976710656) 8 None = 16)
    by (vm_compute; reflexivity).
  rewrite E, R in H.
  assert (C : OK 8 = OK 16).
  { apply H.
    - repeat split; vm_compute; reflexivity.
    - unfold Qle; simpl; lia.
    - lia. }
  discriminate.
Qed.

(** C2, amended.  For every finite [raw] with [0 <= raw <= 2^1000], every
    divisor with [0 < divisor <= 2^1000] and every [min_ch] (unset or
    given), the code returns exactly what the rule of the specification
    gives when each floating-point operation is rounded to binary64: the
    candidate [max(min_channels, floor(s / divisor) * divisor)] for the
    rounded sum [s] of [raw] and [divisor/2], plus one [divisor] when the
    candidate is below the rounded product [0.9 * raw]. *)
Theorem C2_make_divisible_b64_refines_round_channels_b64
        (raw : Q) (divisor : Z) (min_ch : option Z) :
  (0 <= raw)%Q -> (raw <= B64.pow2 1000)%Q ->
  0 < divisor <= 2 ^ 1000 ->
  _make_divisible_b64 (B64.Finite raw) divisor min_ch =
    OK (round_channels_b64 raw divisor min_ch).
Proof.
  intros Hraw Hhi Hd.
  pose proof (pow2_pos 1000) as Hp.
  destruct (_make_divisible_b64_eq raw divisor min_ch ltac:(lia) ltac:(lia)
              ltac:(lra) Hhi) as (He & _ & _).
  cbv zeta in He. rewrite He. unfold round_channels_b64.
  pose proof (half_nonneg divisor ltac:(lia)) as Hh.
  assert (Hs : (0 <= B64.b64 (raw + B64.b64 (inject_Z divisor / 2)))%Q).
  { rewrite <- (b64_zero 0) at 1 by reflexivity. apply b64_mono. lra. }
  rewrite (int_floor _ Hs), (floor_div _ divisor ltac:(lia)).
  set (c := Z.max _ _).
  destruct (Qlt_le_dec (inject_Z c) (B64.b64 (B64.b64 (9 # 10) * raw))) as [Hlt|Hle].
  - apply lt_spec in Hlt. rewrite Hlt. reflexivity.
  - apply lt_false in Hle. rewrite Hle. reflexivity.
Qed.

Lemma C2_make_divisible_b64_refines_witness :
  (0 <= 18)%Q /\ (18 <= B64.pow2 1000)%Q /\ 0 < 8 <= 2 ^ 1000 /\
  _make_divisible_b64 (B64.Finite 18) 8 (Some 8) = OK (round_channels_b64 18 8 (Some 8)).
Proof.
  split; [unfold Qle; simpl; lia|].
  split; [vm_compute; discriminate|].
  split; [lia|].
  apply (C2_make_divisible_b64_refines_round_channels_b64 18%Q 8 (Some 8)).
  - unfold Qle; simpl; lia.
  - vm_compute; discriminate.
  - lia.
Defined.

(** X1. The exceptions of [_make_divisible] on a float [ch], for a divisor
    of magnitude at most [2^1000]: a NaN raises [ValueError] and an infinity
    raises [OverflowError], in [int()] and so even when the divisor is 0; a
    finite [ch] of magnitude at most [2^1000] raises exactly when the
    divisor is 0, and then [ZeroDivisionError]. *)
Theorem X1_make_divisible_b64_exceptions (divisor : Z) (min_ch : option Z) :
  - 2 ^ 1000 <= divisor <= 2 ^ 1000 ->
  _make_divisible_b64 B64.NaN divisor min_ch = Raise ValueError
  /\ (forall negative,
         _make_divisible_b64 (B64.Infinity negative) divisor min_ch = Raise OverflowError)
  /\ (forall ch : Q,
         (- B64.pow2 1000 <= ch)%Q -> (ch <= B64.pow2 1000)%Q ->
         (divisor = 0 ->
          _make_divisible_b64 (B64.Finite ch) divisor min_ch = Raise ZeroDivisionError)
         /\ (divisor <> 0 ->
             exists v, _make_divisible_b64 (B64.Finite ch) divisor min_ch = OK v)).
Proof.
  intros Hdb.
  destruct (inject_pow2_bounds divisor 1000 ltac:(lia) Hdb) as [Hd1 Hd2].
  pose proof (inject_half divisor) as Hh.
  pose proof (pow2_pos 1000) as Hp.
  destruct (round_bounded (inject_Z divisor / 2) 1000 ltac:(lia) ltac:(lra) ltac:(lra))
    as (Rh & Hh1 & Hh2).
  assert (Et : B64.truediv_int divisor 2 =
               OK (B64.Finite (B64.b64 (inject_Z divisor / 2)))).
  { unfold B64.truediv_int. change (2 =? 0) with false. cbv iota.
    change (inject_Z divisor / inject_Z 2)%Q with (inject_Z divisor / 2)%Q.
    rewrite Rh. reflexivity. }
  split; [|split].
  - unfold _make_divisible_b64. rewrite Et. reflexivity.
  - intros negative. unfold _make_divisible_b64. rewrite Et. reflexivity.
  - intros ch Hlo Hhi. split.
    + intros ->. unfold _make_divisible_b64. rewrite Et. cbn [bind B64.add].
      pose proof (pow2_double 1000) as Hdbl.
      destruct (round_bounded (ch + B64.b64 (inject_Z 0 / 2)) (1000 + 1)
                  ltac:(lia) ltac:(lra) ltac:(lra)) as (Rs & _ & _).
      rewrite Rs. reflexivity.
    + intros Hd.
      destruct (_make_divisible_b64_eq ch divisor min_ch Hd Hdb Hlo Hhi) as (He & _ & _).
      eauto.
Qed.

Lemma X1_make_divisible_b64_exceptions_witness :
  - 2 ^ 1000 <= 0 <= 2 ^ 1000 /\
  _make_divisible_b64 B64.NaN 0 None = Raise ValueError.
Proof.
  split; [lia|].
  apply (proj1 (X1_make_divisible_b64_exceptions 0 None ltac:(lia))).
Defined.

(** X5. For a finite binary64 [ch] with [0 <= ch <= 2^1000], a divisor with
    [0 < divisor <= 2^1000] and any [min_ch], the value returned is not
    below the product [0.9 * ch] as the code computes it (which is itself at
    most [ch]), and not below the minimum; when the value is below [2^53],
    the exact [0.9 * ch] is at most the value times [1 + 2^-52]. *)
Theorem X5_make_divisible_b64_bound (ch : Q) (divisor : Z) (min_ch : option Z) :
  B64.representable ch ->
  (0 <= ch)%Q -> (ch <= B64.pow2 1000)%Q ->
  0 < divisor <= 2 ^ 1000 ->
  exists (v : Z) (p : Q),
    _make_divisible_b64 (B64.Finite ch) divisor min_ch = OK v /\
    B64.mul B64.c09 (B64.Finite ch) = B64.Finite p /\
    (p <= inject_Z v)%Q /\
    (p <= ch)%Q /\
    match min_ch with None => divisor | Some m => m end <= v /\
    (1 <= v < 2 ^ 53 -> ((9 # 10) * ch <= inject_Z v * (1 + B64.pow2 (-52)))%Q).
Proof.
  intros (Hr & _ & _) Hch Hhi Hd.
  destruct (_make_divisible_b64_result ch divisor min_ch Hr Hch Hhi Hd)
    as (v & Hv & Hc & Hm & Hb & Hle).
  exists v, (B64.b64 (B64.b64 (9 # 10) * ch)).
  split; [exact Hv|]. split; [exact Hm|]. split; [exact Hb|]. split; [exact Hle|].
  split.
  - destruct Hc as [-> | ->]; lia.
  - intros Hv53.
    apply (_make_divisible_b64_relative ch divisor min_ch v Hr Hch Hhi Hd Hv Hv53).
Qed.

Lemma X5_make_divisible_b64_bound_witness :
  B64.representable (2501999792983609 # 281474976710656) /\
  exists (v : Z) (p : Q),
    _make_divisible_b64 (B64.Finite (2501999792983609 # 281474976710656)) 8 None = OK v /\
    B64.mul B64.c09 (B64.Finite (2501999792983609 # 281474976710656)) = B64.Finite p /\
    (p <= inject_Z v)%Q /\
    (p <= 2501999792983609 # 281474976710656)%Q /\
    8 <= v /\
    (1 <= v < 2 ^ 53 ->
     ((9 # 10) * (2501999792983609 # 281474976710656)
      <= inject_Z v * (1 + B64.pow2 (-52)))%Q).
Proof.
  split; [repeat split; vm_compute; reflexivity|].
  apply (X5_make_divisible_b64_bound (2501999792983609 # 281474976710656)%Q 8 None).
  - repeat split; vm_compute; reflexivity.
  - unfold Qle; simpl; lia.
  - vm_compute; discriminate.
  - lia.
Defined.

(** X7. With [min_ch] unset and a positive divisor, every positive multiple
    of the divisor below [2^51] is returned unchanged: the sum with half the
    divisor is then computed exactly.  (From [2^53] on the sum is rounded
    and a multiple can come back changed.) *)
Theorem X7_make_divisible_b64_fixed_point (k divisor : Z) :
  0 < divisor ->
  1 <= k ->
  k * divisor < 2 ^ 51 ->
  _make_divisible_b64 (B64.Finite (inject_Z (k * divisor))) divisor None =
    OK (k * divisor).
Proof.
  intros Hd Hk Hb.
  set (a := k * divisor) in *.
  assert (Ha : divisor <= a) by (subst a; nia).
  assert (Hr : (B64.b64 (inject_Z a) == inject_Z a)%Q) by (apply b64_int; lia).
  destruct (inject_pow2_bounds a 1000 ltac:(lia) ltac:(lia)) as [Ha1 Ha2].
  assert (Ha0 : (0 <= inject_Z a)%Q) by (unfold Qle; simpl; lia).
  destruct (_make_divisible_b64_eq (inject_Z a) divisor None ltac:(lia) ltac:(lia)
              Ha1 Ha2) as (He & _ & _).
  cbv zeta in He. rewrite He. clear He.
  pose proof (inject_half divisor) as Hh.
  assert (Hhalf : (B64.b64 (inject_Z divisor / 2) == inject_Z divisor / 2)%Q).
  { apply (b64_exact _ divisor (-1)); [|lia|lia].
    change (B64.pow2 (-1)) with (1 # 2)%Q. exact Hh. }
  assert (Hs : (B64.b64 (inject_Z a + B64.b64 (inject_Z divisor / 2))
                == inject_Z a + inject_Z divisor / 2)%Q).
  { rewrite (b64_eq _ (inject_Z a + inject_Z divisor / 2)) by (rewrite Hhalf; reflexivity).
    apply (b64_exact _ (2 * a + divisor) (-1)); [|lia|lia].
    change (B64.pow2 (-1)) with (1 # 2)%Q.
    rewrite inject_Z_plus, inject_Z_mult, Hh. change (inject_Z 2) with 2%Q. ring. }
  set (s := B64.b64 (inject_Z a + B64.b64 (inject_Z divisor / 2))) in *.
  assert (Hd0 : (0 < inject_Z divisor)%Q) by (apply inject_pos; exact Hd).
  assert (Hlo : a <= int s).
  { rewrite <- (int_inject a) at 1. apply int_mono. lra. }
  assert (Hhi : int s < a + divisor).
  { apply int_lt; [lia|]. rewrite inject_Z_plus. lra. }
  assert (Hq : int s / divisor = k).
  { symmetry. apply (Z.div_unique (int s) divisor k (int s - a)); subst a; lia. }
  rewrite Hq. fold a.
  replace (Z.max divisor a) with a by lia.
  destruct (product_below (inject_Z a) Hr Ha0) as [_ Hp].
  assert (Hg : lt (inject_Z a) (B64.b64 (B64.b64 (9 # 10) * inject_Z a)) = false).
  { apply lt_false. exact Hp. }
  rewrite Hg. reflexivity.
Qed.

Lemma X7_make_divisible_b64_fixed_point_witness :
  0 < 8 /\ 1 <= 160 /\ 160 * 8 < 2 ^ 51 /\
  _make_divisible_b64 (B64.Finite (inject_Z (160 * 8))) 8 None = OK (160 * 8).
Proof.
  split; [lia|]. split; [lia|]. split; [lia|].
  apply (X7_make_divisible_b64_fixed_point 160 8); lia.
Defined.

(** ** The constructor with binary64 widths and the library's checks *)

Section CheckedConstructors.

Import MobileNetV2.

Lemma nn_Conv2d_ok (i o k s p g : Z) (b : bool) :
  0 < g -> i mod g = 0 -> o mod g = 0 -> 0 <= i -> 0 <= o -> 0 <= k ->
  nn_Conv2d i o k s p g b = OK (Conv2d.init i o k s p g b).
Proof.
  intros Hg Hi Ho Hi0 Ho0 Hk. unfold nn_Conv2d.
  pose proof (Z.div_pos i g Hi0 Hg) as Hdiv.
  destruct (Z.leb_spec g 0); [lia|].
  rewrite Hi, Ho. cbn [Z.eqb negb].
  destruct (Z.ltb_spec o 0); [lia|].
  destruct (Z.ltb_spec (i / g) 0); [lia|].
  destruct (Z.ltb_spec k 0); [lia|].
  reflexivity.
Qed.

Lemma nn_BatchNorm2d_ok (n : Z) :
  0 <= n -> nn_BatchNorm2d n = OK (BatchNorm2d.init n).
Proof.
  intros Hn. unfold nn_BatchNorm2d. destruct (Z.ltb_spec n 0); [lia|reflexivity].
Qed.

Lemma nn_Linear_ok (i o : Z) :
  0 <= i -> 0 <= o -> nn_Linear i o = OK (Linear.init i o).
Proof.
  intros Hi Ho. unfold nn_Linear.
  destruct (Z.ltb_spec o 0); [lia|]. destruct (Z.ltb_spec i 0); [lia|]. reflexivity.
Qed.

Lemma ConvBNReLU_ok (i o k s g : Z) :
  0 < g -> i mod g = 0 -> o mod g = 0 -> 0 <= i -> 0 <= o -> 0 <= k ->
  ConvBNReLU__init__ i o k s g = OK (ConvBNReLU.init i o k s g).
Proof.
  intros Hg Hi Ho Hi0 Ho0 Hk. unfold ConvBNReLU__init__.
  rewrite (nn_Conv2d_ok i o k s _ g false Hg Hi Ho Hi0 Ho0 Hk). cbn [bind].
  rewrite (nn_BatchNorm2d_ok o Ho0). reflexivity.
Qed.

(** A block with positive widths and a positive expansion passes every
    check of the library. *)
Lemma InvertedResidual_ok (i o s t : Z) :
  0 < i -> 0 < o -> 0 < t ->
  InvertedResidual__init__ i o s t = OK (InvertedResidual.init i o s t).
Proof.
  intros Hi Ho Ht.
  assert (Hh : 0 < i * t) by nia.
  unfold InvertedResidual__init__, InvertedResidual.init.
  rewrite (ConvBNReLU_ok (i * t) (i * t) 3 s (i * t)); try lia;
    try (apply Z.mod_same; lia).
  rewrite (nn_Conv2d_ok (i * t) o 1 1 0 1 false); try lia;
    try (apply Z.mod_1_r).
  rewrite (nn_BatchNorm2d_ok o) by lia.
  destruct (t =? 1); cbn [negb bind].
  - reflexivity.
  - rewrite (ConvBNReLU_ok i (i * t) 1 1 1); try lia; try (apply Z.mod_1_r).
    reflexivity.
Qed.

Lemma blocks_loop_ok (t s oc : Z) (idx : list Z) :
  0 < oc -> 0 < t ->
  forall (fs : list Feature) (ic : Z),
    0 < ic ->
    blocks_loop t s oc idx (fs, ic) = OK (fold_left (block_body t s oc) idx (fs, ic)).
Proof.
  intros Hoc Ht. induction idx as [|i rest IH]; intros fs ic Hic; [reflexivity|].
  cbn [blocks_loop fold_left block_body].
  rewrite (InvertedResidual_ok ic oc _ t Hic Hoc Ht). cbn [bind].
  apply IH. exact Hoc.
Qed.

Lemma channel_after_pos (oc ic : Z) (idx : list Z) :
  0 < oc -> 0 < ic -> 0 < channel_after oc ic idx.
Proof. intros Hoc Hic. destruct idx; cbn; assumption. Qed.

Lemma stages_loop_ok (alpha : B64.float) (round_nearest : Z) (w : Z -> Z)
      (setting : list (Z * Z * Z * Z)) :
  Forall (fun row =>
            let '(t, c, _, _) := row in
            0 < t /\ 0 < w c /\
            (ch <- B64.mul_int c alpha ;; _make_divisible_b64 ch round_nearest None)
            = OK (w c)) setting ->
  forall (fs : list Feature) (ic : Z),
    0 < ic ->
    stages_loop alpha round_nearest setting (fs, ic) =
      OK (fs ++ map Block (setting_blocks w ic setting), setting_channel w ic setting).
Proof.
  induction 1 as [|[[[t c] n] s] rest (Ht & Hw & Hc) _ IH]; intros fs ic Hic.
  - cbn. rewrite app_nil_r. reflexivity.
  - cbn [stages_loop setting_blocks setting_channel].
    destruct (B64.mul_int c alpha) as [ch|e]; [|discriminate].
    cbn [bind] in Hc |- *. rewrite Hc. cbn [bind].
    rewrite (blocks_loop_ok t s (w c) _ Hw Ht fs ic Hic), fold_block_body. cbn [bind].
    rewrite IH by (apply channel_after_pos; assumption).
    rewrite map_app, app_assoc. reflexivity.
Qed.

Lemma product_bounds (x y A B : Q) :
  (- A <= x)%Q -> (x <= A)%Q -> (- B <= y)%Q -> (y <= B)%Q ->
  (- (A * B) <= x * y)%Q /\ (x * y <= A * B)%Q.
Proof.
  intros H1 H2 H3 H4.
  assert (P1 : (0 <= (A - x) * (B + y))%Q) by (apply Qmult_le_0_compat; lra).
  assert (P2 : (0 <= (A + x) * (B - y))%Q) by (apply Qmult_le_0_compat; lra).
  assert (P3 : (0 <= (A - x) * (B - y))%Q) by (apply Qmult_le_0_compat; lra).
  assert (P4 : (0 <= (A + x) * (B + y))%Q) by (apply Qmult_le_0_compat; lra).
  assert (E1 : ((A - x) * (B + y) == A * B + A * y - x * B - x * y)%Q) by ring.
  assert (E2 : ((A + x) * (B - y) == A * B - A * y + x * B - x * y)%Q) by ring.
  assert (E3 : ((A - x) * (B - y) == A * B - A * y - x * B + x * y)%Q) by ring.
  assert (E4 : ((A + x) * (B + y) == A * B + A * y + x * B + x * y)%Q) by ring.
  split; lra.
Qed.

(** A width is computed without overflow for every finite [alpha] of
    magnitude at most [2^900], and is a positive multiple of a positive
    granularity. *)
Lemma width_b64_ok (alpha : Q) (round_nearest c : Z) :
  (- B64.pow2 900 <= alpha)%Q -> (alpha <= B64.pow2 900)%Q ->
  0 < round_nearest <= 2 ^ 1000 ->
  0 <= c <= 2 ^ 20 ->
  let w := width_b64 (B64.Finite alpha) round_nearest c in
  (ch <- B64.mul_int c (B64.Finite alpha) ;; _make_divisible_b64 ch round_nearest None)
  = OK w /\
  round_nearest <= w /\ (round_nearest | w).
Proof.
  intros Ha1 Ha2 Hrn Hc w.
  destruct (inject_pow2_bounds c 20 ltac:(lia) ltac:(lia)) as [Hc1 Hc2].
  destruct (round_bounded (inject_Z c) 20 ltac:(lia) Hc1 Hc2) as (Rc & Hf1 & Hf2).
  destruct (product_bounds _ _ _ _ Hf1 Hf2 Ha1 Ha2) as [Hp1 Hp2].
  assert (E920 : (B64.pow2 20 * B64.pow2 900 == B64.pow2 920)%Q).
  { rewrite <- pow2_add. reflexivity. }
  rewrite E920 in Hp1, Hp2.
  destruct (round_bounded (B64.b64 (inject_Z c) * alpha) 920 ltac:(lia) Hp1 Hp2)
    as (Rp & Hch1 & Hch2).
  pose proof (pow2_le 920 1000 ltac:(lia)) as Hle.
  assert (Em : B64.mul_int c (B64.Finite alpha) =
               OK (B64.Finite (B64.b64 (B64.b64 (inject_Z c) * alpha)))).
  { unfold B64.mul_int, B64.of_int. rewrite Rc. cbn [bind B64.mul]. rewrite Rp.
    reflexivity. }
  destruct (_make_divisible_b64_eq (B64.b64 (B64.b64 (inject_Z c) * alpha))
              round_nearest None ltac:(lia) ltac:(lia) ltac:(lra) ltac:(lra))
    as (He & _ & _).
  cbv zeta in He.
  assert (Ew : (ch <- B64.mul_int c (B64.Finite alpha) ;;
                _make_divisible_b64 ch round_nearest None) = OK w).
  { subst w. unfold width_b64. rewrite Em. cbn [bind]. rewrite He. reflexivity. }
  split; [exact Ew|].
  rewrite Em in Ew. cbn [bind] in Ew. rewrite He in Ew. apply OK_inj in Ew.
  set (q := int _ / round_nearest) in Ew.
  assert (E : Z.max round_nearest (q * round_nearest) = round_nearest * Z.max 1 q) by nia.
  rewrite E in Ew. rewrite <- Ew.
  assert (HM : 1 <= Z.max 1 q) by lia.
  set (M := Z.max 1 q) in *.
  assert (HrM : round_nearest * 1 <= round_nearest * M)
    by (apply Z.mul_le_mono_nonneg_l; lia).
  clear He Ew.
  destruct (lt (inject_Z (round_nearest * M)) _).
  - split; [lia|]. exists (M + 1). lia.
  - split; [lia|]. exists M. lia.
Qed.

(** The constructor for a positive granularity and a finite [alpha] that
    does not overflow: the feature extractor is built, with the binary64
    widths, and what is left is the library's check of the classifier's
    linear map. *)
Lemma MobileNetV2__init___closed (num_classes : Z) (alpha : Q) (round_nearest : Z) :
  (- B64.pow2 900 <= alpha)%Q -> (alpha <= B64.pow2 900)%Q ->
  0 < round_nearest <= 2 ^ 1000 ->
  let w := width_b64 (B64.Finite alpha) round_nearest in
  0 < w 1280 /\
  MobileNetV2__init__ num_classes (B64.Finite alpha) round_nearest =
    (linear <- nn_Linear (w 1280) num_classes ;;
     OK (for_modules init_module
           (mk (Unit (ConvBNReLU.init 3 (w 32) 3 2 1)
                  :: map Block (setting_blocks w (w 32) inverted_residual_setting)
                  ++ [Unit (ConvBNReLU.init (w 320) (w 1280) 1 1 1)])
               (AdaptiveAvgPool2d_ 1 1)
               [Dropout_ (2 # 10); Linear_ linear]))).
Proof.
  intros Ha1 Ha2 Hrn w.
  assert (Hw : forall c, 0 <= c <= 2 ^ 20 ->
                 (ch <- B64.mul_int c (B64.Finite alpha) ;;
                  _make_divisible_b64 ch round_nearest None) = OK (w c) /\ 0 < w c).
  { intros c Hc.
    destruct (width_b64_ok alpha round_nearest c Ha1 Ha2 Hrn Hc) as (E & Hle & _).
    split; [exact E|]. subst w. cbv beta. lia. }
  destruct (Hw 32 ltac:(lia)) as [E32 P32].
  destruct (Hw 1280 ltac:(lia)) as [E1280 P1280].
  destruct (Hw 320 ltac:(lia)) as [_ P320].
  split; [exact P1280|].
  unfold MobileNetV2__init__.
  destruct (B64.mul_int 32 (B64.Finite alpha)) as [ch32|e]; [|discriminate].
  cbn [bind] in E32 |- *. rewrite E32. cbn [bind].
  destruct (B64.mul_int 1280 (B64.Finite alpha)) as [ch1280|e]; [|discriminate].
  cbn [bind] in E1280 |- *. rewrite E1280. cbn [bind].
  rewrite (ConvBNReLU_ok 3 (w 32) 3 2 1); try lia; try apply Z.mod_1_r.
  cbn [bind].
  rewrite (stages_loop_ok (B64.Finite alpha) round_nearest w inverted_residual_setting).
  - cbn [bind]. rewrite (proj2 (default_blocks w (w 32))).
    rewrite (ConvBNReLU_ok (w 320) (w 1280) 1 1 1); try lia; try apply Z.mod_1_r.
    cbn [bind]. rewrite <- app_assoc. reflexivity.
  - unfold inverted_residual_setting.
    repeat (constructor; [split; [lia|]; split; apply Hw; lia|]). constructor.
  - exact P32.
Qed.

End CheckedConstructors.

(** C9, as stated, fails: with [num_classes = -5] and [alpha = -0.5] (and
    the default granularity 8) the construction does not complete.  The
    feature extractor is built, every width being 8, and then [nn.Linear]
    rejects the negative number of outputs with [RuntimeError], inside the
    constructor. *)
Lemma C9_negative_num_classes_counterexample :
  ~ (forall (num_classes : Z) (alpha : Q),
        B64.representable alpha ->
        exists net, MobileNetV2__init__ num_classes (B64.Finite alpha) 8 = OK net).
Proof.
  intros H.
  destruct (H (-5) (- (1 # 2))%Q) as [net Hnet].
  - repeat split; vm_compute; reflexivity.
  - assert (E : MobileNetV2__init__ (-5) (B64.Finite (- (1 # 2))) 8 = Raise RuntimeError)
      by (vm_compute; reflexivity).
    rewrite E in Hnet. clear E. discriminate Hnet.
Qed.

(** C9, amended.  The constructor's own code checks no range, but the
    construction does not complete for every configuration.  For a
    configuration no larger than the default one, that is a finite [alpha]
    with [-2^900 <= alpha <= 1], zero and negative values included, a
    granularity with [0 < round_nearest <= 8] and [num_classes <= 1000]:
    when [0 <= num_classes] the construction completes, with the 19 feature
    elements (17 of them blocks) and a classifier whose linear map has
    [num_classes] outputs; when [num_classes < 0] (a 64-bit number) it
    fails inside the constructor, after the feature extractor has been
    built, with the [RuntimeError] of [nn.Linear]. *)
Theorem C9_no_range_validation_b64
        (num_classes : Z) (alpha : Q) (round_nearest : Z) :
  (- B64.pow2 900 <= alpha)%Q -> (alpha <= 1)%Q ->
  0 < round_nearest <= 8 ->
  num_classes <= 1000 ->
  (0 <= num_classes ->
   exists net p l,
     MobileNetV2__init__ num_classes (B64.Finite alpha) round_nearest = OK net /\
     length (MobileNetV2.features net) = 19%nat /\
     length (MobileNetV2.blocks (MobileNetV2.features net)) = 17%nat /\
     MobileNetV2.classifier net = [Dropout_ p; Linear_ l] /\
     Linear.out_features l = num_classes)
  /\ (- 2 ^ 63 <= num_classes < 0 ->
      MobileNetV2__init__ num_classes (B64.Finite alpha) round_nearest =
        Raise RuntimeError).
Proof.
  intros Ha1 Ha2 Hrn _.
  assert (Ha3 : (alpha <= B64.pow2 900)%Q).
  { apply (Qle_trans _ 1); [exact Ha2|]. vm_compute. discriminate. }
  destruct (MobileNetV2__init___closed num_classes alpha round_nearest Ha1 Ha3
              ltac:(lia)) as [Hw E].
  cbv zeta in E. split.
  - intros Hnc. rewrite (nn_Linear_ok _ num_classes) in E by lia. cbn [bind] in E.
    eexists _, _, _. split; [exact E|].
    rewrite blocks_for_modules.
    cbn [MobileNetV2.for_modules MobileNetV2.features MobileNetV2.classifier].
    rewrite !length_map. cbn [length]. rewrite length_app, !length_map.
    rewrite (proj1 (default_blocks _ _)). repeat split.
  - intros Hnc. rewrite E. unfold nn_Linear.
    destruct (Z.ltb_spec num_classes 0); [reflexivity|lia].
Qed.

Lemma C9_no_range_validation_b64_witness :
  (- B64.pow2 900 <= - (1 # 2))%Q /\ (- (1 # 2) <= 1)%Q /\
  0 < 8 <= 8 /\ 5 <= 1000 /\ 0 <= 5 /\
  exists net p l,
    MobileNetV2__init__ 5 (B64.Finite (- (1 # 2))) 8 = OK net /\
    length (MobileNetV2.features net) = 19%nat /\
    length (MobileNetV2.blocks (MobileNetV2.features net)) = 17%nat /\
    MobileNetV2.classifier net = [Dropout_ p; Linear_ l] /\
    Linear.out_features l = 5.
Proof.
  split; [vm_compute; discriminate|]. split; [vm_compute; discriminate|].
  split; [lia|]. split; [lia|]. split; [lia|].
  apply (proj1 (C9_no_range_validation_b64 5 (- (1 # 2))%Q 8
                  ltac:(vm_compute; discriminate) ltac:(vm_compute; discriminate)
                  ltac:(lia) ltac:(lia))).
  lia.
Defined.

(** X19. For the default [num_classes] and granularity and each of the
    usual width multipliers 0.35, 0.5, 0.75, 1.0, 1.3 and 1.4, taken as
    float literals, the constructor in binary64 arithmetic and with the
    library's checks returns a network, and it is the network that widths
    computed in exact arithmetic at the decimal value give: rounding changes
    no width there. *)
Theorem X19_common_multipliers :
  Forall (fun alpha : Q =>
            exists net,
              MobileNetV2__init__ 1000 (B64.round alpha) 8 = OK net /\
              MobileNetV2.init 1000 alpha 8 = OK net)
         [35 # 100; 1 # 2; 3 # 4; 1; 13 # 10; 14 # 10]%Q.
Proof.
  repeat (constructor; [eexists; split; vm_compute; reflexivity|]). constructor.
Qed.

(** ** The network in binary64 and with the checks of the library *)

(** With [alpha <= 0] every width is the granularity itself, in binary64
    as in exact arithmetic. *)
Lemma width_b64_degenerate (alpha : Q) (round_nearest c : Z) :
  (- B64.pow2 900 <= alpha)%Q -> (alpha <= 0)%Q ->
  0 < round_nearest <= 2 ^ 1000 ->
  0 <= c <= 2 ^ 20 ->
  width_b64 (B64.Finite alpha) round_nearest c = round_nearest.
Proof.
  intros Ha1 Ha2 Hrn Hc.
  pose proof (pow2_pos 900) as Hp900.
  destruct (inject_pow2_bounds c 20 ltac:(lia) ltac:(lia)) as [Hc1 Hc2].
  destruct (round_bounded (inject_Z c) 20 ltac:(lia) Hc1 Hc2) as (Rc & Hf1 & Hf2).
  destruct (product_bounds _ _ _ _ Hf1 Hf2 Ha1 ltac:(lra)) as [Hp1 Hp2].
  assert (E920 : (B64.pow2 20 * B64.pow2 900 == B64.pow2 920)%Q).
  { rewrite <- pow2_add. reflexivity. }
  rewrite E920 in Hp1, Hp2.
  destruct (round_bounded (B64.b64 (inject_Z c) * alpha) 920 ltac:(lia) Hp1 Hp2)
    as (Rp & Hch1 & Hch2).
  pose proof (pow2_le 920 1000 ltac:(lia)) as Hle.
  assert (Em : B64.mul_int c (B64.Finite alpha) =
               OK (B64.Finite (B64.b64 (B64.b64 (inject_Z c) * alpha)))).
  { unfold B64.mul_int, B64.of_int. rewrite Rc. cbn [bind B64.mul]. rewrite Rp.
    reflexivity. }
  (* the product is not positive *)
  assert (Hc0 : (0 <= B64.b64 (inject_Z c))%Q).
  { rewrite <- (b64_zero 0) at 1 by reflexivity. apply b64_mono.
    unfold Qle; simpl; lia. }
  assert (Hneg : (B64.b64 (inject_Z c) * alpha <= 0)%Q).
  { assert (Hm : (0 <= B64.b64 (inject_Z c) * - alpha)%Q)
      by (apply Qmult_le_0_compat; [exact Hc0|lra]).
    assert (Hr : (B64.b64 (inject_Z c) * - alpha == - (B64.b64 (inject_Z c) * alpha))%Q)
      by ring.
    lra. }
  assert (Hch0 : (B64.b64 (B64.b64 (inject_Z c) * alpha) <= 0)%Q).
  { pose proof (b64_mono _ _ Hneg) as H. rewrite (b64_zero 0) in H by reflexivity.
    exact H. }
  set (ch := B64.b64 (B64.b64 (inject_Z c) * alpha)) in *.
  destruct (_make_divisible_b64_eq ch round_nearest None ltac:(lia) ltac:(lia)
              ltac:(lra) ltac:(lra)) as (He & _ & _).
  cbv zeta in He.
  unfold width_b64. rewrite Em. cbn [bind]. rewrite He. clear He Em.
  (* the sum is at most a power of two that does not exceed the granularity *)
  set (k := Z.log2 round_nearest).
  destruct (Z.log2_spec round_nearest ltac:(lia)) as [Hk1 Hk2]. fold k in Hk1, Hk2.
  assert (Hk0 : 0 <= k) by apply Z.log2_nonneg.
  pose proof (inject_half round_nearest) as Hh.
  assert (Hk2q : (inject_Z round_nearest <= inject_Z (2 ^ (k + 1)))%Q)
    by (rewrite <- Zle_Qle; lia).
  assert (E2 : (inject_Z (2 ^ (k + 1)) == 2 * B64.pow2 k)%Q).
  { rewrite <- (pow2_inject (k + 1)) by lia. rewrite pow2_add.
    change (B64.pow2 1) with 2%Q. ring. }
  assert (Hhalf : (B64.b64 (inject_Z round_nearest / 2) <= B64.pow2 k)%Q).
  { rewrite <- (b64_pow2 k) by lia. apply b64_mono. lra. }
  assert (Hs : (B64.b64 (ch + B64.b64 (inject_Z round_nearest / 2)) <= B64.pow2 k)%Q).
  { apply (Qle_trans _ (B64.b64 (B64.pow2 k))); [apply b64_mono; lra|].
    rewrite b64_pow2 by lia. apply Qle_refl. }
  assert (Hk1q : (B64.pow2 k <= inject_Z round_nearest)%Q).
  { rewrite (pow2_inject k Hk0), <- Zle_Qle. exact Hk1. }
  assert (Hrq : (0 < inject_Z round_nearest)%Q) by (apply inject_pos; lia).
  assert (Hi : int (B64.b64 (ch + B64.b64 (inject_Z round_nearest / 2)))
               < 2 * round_nearest).
  { apply int_lt; [lia|]. rewrite inject_Z_mult. change (inject_Z 2) with 2%Q. lra. }
  assert (Hq : int (B64.b64 (ch + B64.b64 (inject_Z round_nearest / 2))) / round_nearest < 2)
    by (apply Z.div_lt_upper_bound; lia).
  set (q := int _ / round_nearest) in *.
  assert (Hqd : q * round_nearest <= 1 * round_nearest)
    by (apply Z.mul_le_mono_nonneg_r; lia).
  replace (Z.max round_nearest (q * round_nearest)) with round_nearest by lia.
  assert (Hprod : (B64.b64 (B64.b64 (9 # 10) * ch) <= 0)%Q).
  { destruct c09_value as (_ & H0 & _).
    assert (Hm : (0 <= B64.b64 (9 # 10) * - ch)%Q)
      by (apply Qmult_le_0_compat; [exact H0|lra]).
    assert (Hr : (B64.b64 (9 # 10) * - ch == - (B64.b64 (9 # 10) * ch))%Q) by ring.
    assert (Hn : (B64.b64 (9 # 10) * ch <= 0)%Q) by lra.
    pose proof (b64_mono _ _ Hn) as H. rewrite (b64_zero 0) in H by reflexivity.
    exact H. }
  assert (Hg : lt (inject_Z round_nearest) (B64.b64 (B64.b64 (9 # 10) * ch)) = false).
  { apply lt_false. lra. }
  rewrite Hg. reflexivity.
Qed.

(** X17. Whenever the constructor, in binary64 arithmetic and with the
    library's checks, returns a network for a finite [alpha] of magnitude at
    most [2^900] and a granularity with [0 < round_nearest <= 2^1000]:
    [num_classes] is not negative; each width
    [_make_divisible(c * alpha, round_nearest)] is computed without an
    exception and is a positive multiple of the granularity; the stem
    produces the width for 32; every block of a stage produces the width of
    its stage and accepts the width of the block before it (the stem's for
    the first block); and the strides are, stage after stage, [s] for
    block 0 and 1 for the others. *)
Theorem X17_binary64_stage_widths
        (num_classes : Z) (alpha : Q) (round_nearest : Z) (net : MobileNetV2.t) :
  (- B64.pow2 900 <= alpha)%Q -> (alpha <= B64.pow2 900)%Q ->
  0 < round_nearest <= 2 ^ 1000 ->
  MobileNetV2__init__ num_classes (B64.Finite alpha) round_nearest = OK net ->
  let w := width_b64 (B64.Finite alpha) round_nearest in
  let bs := MobileNetV2.blocks (MobileNetV2.features net) in
  let outs := setting_widths w MobileNetV2.inverted_residual_setting in
  (forall c, 0 <= c <= 1280 ->
             (ch <- B64.mul_int c (B64.Finite alpha) ;;
              _make_divisible_b64 ch round_nearest None) = OK (w c) /\
             round_nearest <= w c /\ (round_nearest | w c)) /\
  stem_channels net = Some (w 32) /\
  map InvertedResidual.out_channels bs = map Some outs /\
  map InvertedResidual.in_channels bs = map Some (w 32 :: removelast outs) /\
  map InvertedResidual.stride bs =
    map Some (setting_strides MobileNetV2.inverted_residual_setting) /\
  0 <= num_classes.
Proof.
  intros Ha1 Ha2 Hrn Hnet w bs outs.
  destruct (MobileNetV2__init___closed num_classes alpha round_nearest Ha1 Ha2 Hrn)
    as [_ E].
  cbv zeta in E. fold w in E. rewrite E in Hnet. clear E.
  assert (Hnc : 0 <= num_classes).
  { unfold nn_Linear in Hnet. destruct (Z.ltb_spec num_classes 0) as [Hlt|Hge];
      [discriminate Hnet|exact Hge]. }
  destruct (nn_Linear (w 1280) num_classes) as [l|e]; cbn [bind] in Hnet;
    [|discriminate Hnet].
  apply OK_inj in Hnet. subst net.
  split.
  { intros c Hc. apply (width_b64_ok alpha round_nearest c Ha1 Ha2 Hrn). lia. }
  split; [reflexivity|].
  subst bs. rewrite blocks_for_modules.
  rewrite (map_pass _ _ _ out_channels_pass (built_default w (w 32))).
  rewrite (map_pass _ _ _ in_channels_pass (built_default w (w 32))).
  rewrite (map_pass _ _ _ stride_pass (built_default w (w 32))).
  rewrite (proj1 (default_blocks w (w 32))).
  cbn [map]. rewrite !out_channels_init, !in_channels_init, !stride_init.
  repeat split. exact Hnc.
Qed.

Lemma X17_binary64_stage_widths_witness :
  exists net,
    (- B64.pow2 900 <= 3 # 4)%Q /\ (3 # 4 <= B64.pow2 900)%Q /\
    0 < 8 <= 2 ^ 1000 /\
    MobileNetV2__init__ 10 (B64.Finite (3 # 4)) 8 = OK net /\
    map InvertedResidual.out_channels (MobileNetV2.blocks (MobileNetV2.features net)) =
      map Some [16; 24; 24; 24; 24; 24; 48; 48; 48; 48; 72; 72; 72; 120; 120; 120; 240].
Proof.
  eexists. split; [vm_compute; discriminate|]. split; [vm_compute; discriminate|].
  split; [lia|]. split; [vm_compute; reflexivity|].
  apply (X17_binary64_stage_widths 10 (3 # 4)%Q 8);
    [vm_compute; discriminate|vm_compute; discriminate|lia|vm_compute; reflexivity].
Defined.

(** X18. With [alpha <= 0] (finite, of magnitude at most [2^900]) and a
    granularity with [0 < round_nearest <= 2^1000], a network that the
    constructor returns, in binary64 arithmetic and with the library's
    checks, is degenerate: the stem, every block (input and output) and the
    input of the classifier's linear map all have [round_nearest]
    channels. *)
Theorem X18_binary64_degenerate_widths
        (num_classes : Z) (alpha : Q) (round_nearest : Z) (net : MobileNetV2.t) :
  (- B64.pow2 900 <= alpha)%Q -> (alpha <= 0)%Q ->
  0 < round_nearest <= 2 ^ 1000 ->
  MobileNetV2__init__ num_classes (B64.Finite alpha) round_nearest = OK net ->
  stem_channels net = Some round_nearest /\
  (forall b,
      In b (MobileNetV2.blocks (MobileNetV2.features net)) ->
      InvertedResidual.in_channels b = Some round_nearest /\
      InvertedResidual.out_channels b = Some round_nearest) /\
  (exists p l,
      MobileNetV2.classifier net = [Dropout_ p; Linear_ l] /\
      Linear.in_features l = round_nearest /\
      Linear.out_features l = num_classes).
Proof.
  intros Ha1 Ha2 Hrn Hnet.
  pose proof (pow2_pos 900) as Hp900.
  assert (Ha3 : (alpha <= B64.pow2 900)%Q) by lra.
  set (w := width_b64 (B64.Finite alpha) round_nearest).
  assert (Hw : forall c, 0 <= c <= 2 ^ 20 -> w c = round_nearest)
    by (intros c Hc; apply width_b64_degenerate; assumption).
  destruct (MobileNetV2__init___closed num_classes alpha round_nearest Ha1 Ha3 Hrn)
    as [_ E].
  cbv zeta in E. fold w in E. rewrite E in Hnet. clear E.
  unfold nn_Linear in Hnet.
  destruct ((num_classes <? 0) || (w 1280 <? 0)); cbn [bind] in Hnet;
    [discriminate Hnet|].
  apply OK_inj in Hnet. subst net.
  split; [cbn; rewrite Hw by lia; reflexivity|]. split.
  - intros b Hin. rewrite blocks_for_modules in Hin.
    apply in_map_iff in Hin. destruct Hin as (b0 & <- & Hin0).
    assert (H : Forall (fun b => InvertedResidual.in_channels b = Some round_nearest /\
                                 InvertedResidual.out_channels b = Some round_nearest)
                       (setting_blocks w (w 32) MobileNetV2.inverted_residual_setting)).
    { apply default_blocks_Forall. intros i o s t Hi Ho _.
      rewrite in_channels_init, out_channels_init.
      assert (Ei : i = round_nearest).
      { cbn in Hi. repeat (destruct Hi as [<-|Hi]; [apply Hw; lia|]). contradiction. }
      assert (Eo : o = round_nearest).
      { cbn in Ho. repeat (destruct Ho as [<-|Ho]; [apply Hw; lia|]). contradiction. }
      subst. split; reflexivity. }
    rewrite Forall_forall in H. destruct (H _ Hin0) as [Hi Ho].
    pose proof (built_default w (w 32)) as Hb.
    rewrite Forall_forall in Hb.
    rewrite (in_channels_pass _ (Hb _ Hin0)), (out_channels_pass _ (Hb _ Hin0)).
    split; assumption.
  - eexists _, _. split; [reflexivity|]. cbn. split; [apply Hw; lia|reflexivity].
Qed.

Lemma X18_binary64_degenerate_widths_witness :
  exists net,
    (- B64.pow2 900 <= - (1 # 2))%Q /\ (- (1 # 2) <= 0)%Q /\
    0 < 8 <= 2 ^ 1000 /\
    MobileNetV2__init__ 5 (B64.Finite (- (1 # 2))) 8 = OK net /\
    stem_channels net = Some 8.
Proof.
  eexists. split; [vm_compute; discriminate|]. split; [vm_compute; discriminate|].
  split; [lia|]. split; [vm_compute; reflexivity|].
  apply (X18_binary64_degenerate_widths 5 (- (1 # 2))%Q 8);
    [vm_compute; discriminate|vm_compute; discriminate|lia|vm_compute; reflexivity].
Defined.
